(** * Voice teleoperation bridge: GeminiLiveService and analyzeScene

    A shallow embedding of the Gemini live-session service of the rover
    console (tool-call dispatch, PCM codec, playback scheduler, teardown)
    and of the one-shot scene analyser, together with the properties
    established about them. *)

From Stdlib Require Import ZArith QArith Qabs Qround Qpower List String Ascii Bool Lia Lqa.
Import ListNotations.

Local Open Scope Z_scope.

(** ** JavaScript numbers

    An IEEE number is either NaN, an infinity, or a finite value, which
    is a rational.  Negative zero is not separated from zero: the code
    below never observes the difference (both are falsy, both compare
    equal, both store as the integer 0). *)

Module Js.

Inductive number : Type :=
| NaN
| Inf (negative : bool)
| Fin (q : Q).

Definition is_zero (q : Q) : bool := Qnum q =? 0.
Definition is_neg (q : Q) : bool := Qnum q <? 0.

(** ToBoolean on a number: 0, -0 and NaN are falsy. *)
Definition truthy (n : number) : bool :=
  match n with
  | NaN => false
  | Inf _ => true
  | Fin q => negb (is_zero q)
  end.

(** Unary minus. *)
Definition neg (n : number) : number :=
  match n with
  | NaN => NaN
  | Inf b => Inf (negb b)
  | Fin q => Fin (- q)
  end.

(** [a < b]; false as soon as one side is NaN. *)
Definition lt (a b : number) : bool :=
  match a, b with
  | NaN, _ | _, NaN => false
  | Inf true, Inf true => false
  | Inf true, _ => true
  | _, Inf true => false
  | Inf false, _ => false
  | Fin _, Inf false => true
  | Fin x, Fin y => match x ?= y with Lt => true | _ => false end
  end%Q.

(** [Math.min] and [Math.max]: NaN as soon as one argument is NaN. *)
Definition min (a b : number) : number :=
  match a, b with
  | NaN, _ | _, NaN => NaN
  | _, _ => if lt b a then b else a
  end.

Definition max (a b : number) : number :=
  match a, b with
  | NaN, _ | _, NaN => NaN
  | _, _ => if lt a b then b else a
  end.

(** Multiplication by a finite, strictly positive constant [c]. *)
Definition scale (a : number) (c : Q) : number :=
  match a with
  | NaN => NaN
  | Inf b => Inf b
  | Fin q => Fin (q * c)
  end.

(** ToBoolean on a string: only the empty string is falsy. *)
Definition truthy_string (s : string) : bool :=
  match s with
  | EmptyString => false
  | String _ _ => true
  end.

(** A thrown value, as far as [(e as Error).message] and string
    concatenation observe it: [null]/[undefined], or a value whose
    [message] property is a string or is missing. *)
Inductive Thrown : Type :=
| ThrownNullish
| ThrownValue (message : option string).

End Js.

(** ** Base64, the text encoding of [btoa] and [atob]

    [btoa] is RFC 4648 base64 with padding; [atob] is the forgiving
    decoder of the HTML standard: ASCII whitespace is dropped, one or two
    trailing [=] are dropped when the length is a multiple of four, a
    length of 1 modulo 4 or a character outside the alphabet is an
    [InvalidCharacterError] (here [None]). *)

Module Base64.

Definition is_byte (b : Z) : Prop := 0 <= b < 256.
Definition is_sextet (v : Z) : Prop := 0 <= v < 64.

Definition alphabet : list ascii :=
  list_ascii_of_string
    "ABCDEFGHIJKLMNOPQRSTUVWXYZabcdefghijklmnopqrstuvwxyz0123456789+/".

Definition pad : ascii := "="%char.

Definition digit (n : Z) : ascii := nth (Z.to_nat n) alphabet pad.

Fixpoint index_of (c : ascii) (l : list ascii) (i : Z) : option Z :=
  match l with
  | [] => None
  | d :: l' => if Ascii.eqb c d then Some i else index_of c l' (i + 1)
  end.

Definition value (c : ascii) : option Z := index_of c alphabet 0.

(** Three bytes become four digits; a last group of one or two bytes is
    padded. *)
Fixpoint encode (bs : list Z) : list ascii :=
  match bs with
  | [] => []
  | [a] => [digit (a / 4); digit (a mod 4 * 16); pad; pad]
  | [a; b] =>
      [digit (a / 4); digit (a mod 4 * 16 + b / 16); digit (b mod 16 * 4); pad]
  | a :: b :: c :: rest =>
      digit (a / 4) :: digit (a mod 4 * 16 + b / 16)
        :: digit (b mod 16 * 4 + c / 64) :: digit (c mod 64) :: encode rest
  end.

Definition is_whitespace (c : ascii) : bool :=
  let n := N_of_ascii c in
  ((n =? 9) || (n =? 10) || (n =? 12) || (n =? 13) || (n =? 32))%N.

Definition is_padding_tail (l : list ascii) : bool :=
  match l with
  | [a] => Ascii.eqb a pad
  | [a; b] => Ascii.eqb a pad && Ascii.eqb b pad
  | _ => false
  end.

(** Drop one or two [=] at the end. *)
Fixpoint strip_padding (cs : list ascii) {struct cs} : list ascii :=
  if is_padding_tail cs then []
  else match cs with
       | [] => []
       | c :: cs' => c :: strip_padding cs'
       end.

Fixpoint values (cs : list ascii) : option (list Z) :=
  match cs with
  | [] => Some []
  | c :: cs' =>
      match value c, values cs' with
      | Some v, Some vs => Some (v :: vs)
      | _, _ => None
      end
  end.

(** Four digits become three bytes; the bits left over in a last group of
    two or three digits are discarded. *)
Fixpoint decode (vs : list Z) : list Z :=
  match vs with
  | v1 :: v2 :: v3 :: v4 :: rest =>
      (v1 * 4 + v2 / 16) :: (v2 mod 16 * 16 + v3 / 4) :: (v3 mod 4 * 64 + v4)
        :: decode rest
  | [v1; v2; v3] => [v1 * 4 + v2 / 16; v2 mod 16 * 16 + v3 / 4]
  | [v1; v2] => [v1 * 4 + v2 / 16]
  | _ => []
  end.

(** The digit values that [encode] writes, without the padding. *)
Fixpoint sextets (bs : list Z) : list Z :=
  match bs with
  | [] => []
  | [a] => [a / 4; a mod 4 * 16]
  | [a; b] => [a / 4; a mod 4 * 16 + b / 16; b mod 16 * 4]
  | a :: b :: c :: rest =>
      a / 4 :: (a mod 4 * 16 + b / 16) :: (b mod 16 * 4 + c / 64) :: c mod 64
        :: sextets rest
  end.

(** [s.charCodeAt(i)] for every [i], and [String.fromCharCode] on every
    byte. *)
Definition charCodes (s : string) : list Z :=
  map (fun c => Z.of_N (N_of_ascii c)) (list_ascii_of_string s).

Definition fromCharCodes (bs : list Z) : string :=
  string_of_list_ascii (map (fun b => ascii_of_N (Z.to_N b)) bs).

Definition btoa (binary : string) : string :=
  string_of_list_ascii (encode (charCodes binary)).

Definition atob (s : string) : option string :=
  let cs0 := filter (fun c => negb (is_whitespace c)) (list_ascii_of_string s) in
  let cs := if Z.of_nat (List.length cs0) mod 4 =? 0 then strip_padding cs0 else cs0 in
  if Z.of_nat (List.length cs) mod 4 =? 1 then None
  else match values cs with
       | Some vs => Some (fromCharCodes (decode vs))
       | None => None
       end.

End Base64.

(** ** PCM codec: [createPcmBlob] and [decodeAudioData]

    The samples of a [Float32Array] are read as numbers.  The products
    [s * 0x8000] and [s * 0x7FFF] of a 24-bit significand by a 15-bit
    constant fit the 53-bit significand of a double, and a 16-bit integer
    divided by 32768 fits a float32, so both conversions are exact and
    rational arithmetic computes what the code computes. *)

Module Codec.
Import Js.

Definition is_int16 (z : Z) : Prop := -32768 <= z <= 32767.

(** Truncation toward zero. *)
Definition trunc (q : Q) : Z := Z.quot (Qnum q) (Zpos (Qden q)).

Definition wrap16 (z : Z) : Z := (z + 32768) mod 65536 - 32768.

(** The conversion of a store into an [Int16Array]: NaN and the
    infinities become 0, a finite number is truncated and wrapped
    modulo 2^16. *)
Definition toInt16 (n : number) : Z :=
  match n with
  | Fin q => wrap16 (trunc q)
  | _ => 0
  end.

(** Body of the first loop of [createPcmBlob]. *)
Definition encodeSample (x : number) : Z :=
  let s := max (Fin (-1)) (min (Fin 1) x) in
  toInt16 (if lt s (Fin 0) then scale s 32768 else scale s 32767).

(** The two bytes of one [Int16Array] element as [Uint8Array] sees them
    (two's complement, low byte first). *)
Definition int16Bytes (z : Z) : list Z := [z mod 256; (z / 256) mod 256].

Definition pcmBytes (data : list number) : list Z :=
  flat_map int16Bytes (map encodeSample data).

Record Blob : Type := mkBlob { mimeType : string; data : string }.

Definition createPcmBlob (data : list number) : Blob :=
  let buffer := pcmBytes data in
  let binary := Base64.fromCharCodes buffer in
  mkBlob "audio/pcm;rate=16000" (Base64.btoa binary).

(** [new Int16Array(data.buffer)]: a [RangeError] (here [None]) unless the
    byte length is even. *)
Fixpoint int16View (bytes : list Z) : option (list Z) :=
  match bytes with
  | [] => Some []
  | [_] => None
  | lo :: hi :: rest =>
      match int16View rest with
      | Some zs =>
          let u := lo + 256 * hi in
          Some ((if u <? 32768 then u else u - 65536) :: zs)
      | None => None
      end
  end.

Record AudioBuffer : Type := mkAudioBuffer {
  channelData : list number;
  sampleRate : Z
}.

(** [AudioBuffer.duration], in seconds. *)
Definition duration (b : AudioBuffer) : Q :=
  inject_Z (Z.of_nat (List.length (channelData b))) / inject_Z (sampleRate b).

Inductive DecodeError : Type :=
| RangeError          (* odd byte length *)
| NotSupportedError.  (* [createBuffer] with no frame *)

Definition decodeAudioData (bytes : list Z) : DecodeError + AudioBuffer :=
  match int16View bytes with
  | None => inl RangeError
  | Some [] => inl NotSupportedError
  | Some dataInt16 =>
      inr (mkAudioBuffer (map (fun z => Fin (z # 32768)) dataInt16) 24000)
  end.

End Codec.

(** ** The codec as the specification words it

    Clamp to [-1,1]; scale by 32767 when the clamped value is not
    negative and by 32768 when it is; truncate to an integer; pack the
    16-bit two's complement value low byte first.  A NaN has no clamped
    value.  The decoder divides by 32768. *)

Module CodecSpec.
Import Js.

Definition clamp (x : number) : option Q :=
  match x with
  | NaN => None
  | Inf true => Some (-1)
  | Inf false => Some 1
  | Fin q => Some (if Qle_bool q (-1) then -1 else if Qle_bool 1 q then 1 else q)
  end%Q.

Definition scaled (c : Q) : Q :=
  (if Qle_bool 0 c then c * 32767 else c * 32768)%Q.

(** The integer part: the floor of a value that is not negative, the
    ceiling of a negative one. *)
Definition truncate (q : Q) : Z :=
  if Qle_bool 0 q then Qfloor q else Qceiling q.

Definition sample (x : number) : option Z :=
  option_map (fun c => truncate (scaled c)) (clamp x).

Definition pack (z : Z) : list Z :=
  let u := if z <? 0 then z + 65536 else z in
  [u mod 256; u / 256].

Fixpoint encode (xs : list number) : option (list Z) :=
  match xs with
  | [] => Some []
  | x :: xs' =>
      match sample x, encode xs' with
      | Some z, Some bytes => Some (pack z ++ bytes)
      | _, _ => None
      end
  end.

Definition decodeToFloat (int16s : list Z) : list Q :=
  map (fun z => inject_Z z / 32768)%Q int16s.

(** Two numbers with the same value. *)
Definition same (x y : number) : Prop :=
  match x, y with
  | NaN, NaN => True
  | Inf a, Inf b => a = b
  | Fin p, Fin q => (p == q)%Q
  | _, _ => False
  end.

End CodecSpec.

(** ** Tool-call dispatch (the [onmessage] callback of [connect]) *)

Module Dispatch.
Import Js.
Local Open Scope string_scope.

(** [MotorCommand] of the shared types; [cmd] is the constant ['move']. *)
Record MotorCommand : Type := mkMotorCommand {
  cmd : string;
  throttle : number;
  steer : number
}.

(** [fc.args] of a [moveRobot] call: [direction] and [speed] may be
    missing. *)
Record Args : Type := mkArgs {
  direction : option string;
  speed : option number
}.

(** One entry of [msg.toolCall.functionCalls]; the handler reads [id],
    [name] and [args] without a test, so they are taken as present. *)
Record FunctionCall : Type := mkFunctionCall {
  id : string;
  name : string;
  args : Args
}.

Record InlineData : Type := mkInlineData { data : option string }.

Record Part : Type := mkPart {
  inlineData : option InlineData;
  text : option string
}.

Record ModelTurn : Type := mkModelTurn { parts : option (list Part) }.
Record ServerContent : Type := mkServerContent { modelTurn : option ModelTurn }.
Record ToolCall : Type := mkToolCall { functionCalls : list FunctionCall }.

Record LiveServerMessage : Type := mkMessage {
  toolCall : option ToolCall;
  serverContent : option ServerContent
}.

(** The payload of [session.sendToolResponse]. *)
Record FunctionResponse : Type := mkFunctionResponse {
  resp_id : string;
  resp_name : string;
  resp_result : string
}.

Definition zero : number := Fin 0.

(** The [enum] of the declared [direction] parameter. *)
Definition directions : list string :=
  ["forward"; "backward"; "left"; "right"; "stop"].

(** [(fc.args.speed as number) || 200] *)
Definition spd_of (a : Args) : number :=
  match speed a with
  | Some n => if truthy n then n else Fin 200
  | None => Fin 200
  end.

(** The [switch (dir)] of the handler, starting from
    [throttle = 0; steer = 0]. *)
Definition motorCommand (a : Args) : MotorCommand :=
  let spd := spd_of a in
  let '(throttle, steer) :=
    match direction a with
    | Some dir =>
        if dir =? "forward" then (spd, zero)
        else if dir =? "backward" then (neg spd, zero)
        else if dir =? "left" then (zero, neg spd)
        else if dir =? "right" then (zero, spd)
        else if dir =? "stop" then (zero, zero)
        else (zero, zero)
    | None => (zero, zero)
    end in
  mkMotorCommand "move" throttle steer.

(** *** The handler as a resumption

    [onmessage] is an [async] function: it runs until it awaits the
    promise returned by [config.onToolCall], and resumes with the value
    that promise is fulfilled with.  A rejected promise makes the [await]
    throw; the handler has no [try], so the continuation is only given
    for the fulfilled case. *)
Inductive Task : Type :=
| Return
| AwaitToolCall (c : MotorCommand) (k : string -> Task)
| SendToolResponse (r : FunctionResponse) (k : Task)
| AwaitPlayAudio (base64 : string) (k : Task)
| OnTranscript (t : string) (isUser : bool) (k : Task).

(** [for (const fc of msg.toolCall.functionCalls) { ... }] followed by
    [rest]. *)
Fixpoint forFunctionCalls (fcs : list FunctionCall) (rest : Task) : Task :=
  match fcs with
  | [] => rest
  | fc :: fcs' =>
      if name fc =? "moveRobot" then
        AwaitToolCall (motorCommand (args fc)) (fun result =>
          SendToolResponse (mkFunctionResponse (id fc) (name fc) result)
            (forFunctionCalls fcs' rest))
      else forFunctionCalls fcs' rest
  end.

(** [msg.serverContent?.modelTurn?.parts?.[0]] *)
Definition firstPart (msg : LiveServerMessage) : option Part :=
  match serverContent msg with
  | Some sc =>
      match modelTurn sc with
      | Some mt =>
          match parts mt with
          | Some ps => nth_error ps 0
          | None => None
          end
      | None => None
      end
  | None => None
  end.

(** [...parts?.[0]?.inlineData?.data] *)
Definition audioDataOf (msg : LiveServerMessage) : option string :=
  match firstPart msg with
  | Some p => match inlineData p with Some d => data d | None => None end
  | None => None
  end.

(** [...parts?.[0]?.text] *)
Definition textOf (msg : LiveServerMessage) : option string :=
  match firstPart msg with
  | Some p => text p
  | None => None
  end.

Definition handleTranscript (msg : LiveServerMessage) : Task :=
  match textOf msg with
  | Some t => if truthy_string t then OnTranscript t false Return else Return
  | None => Return
  end.

Definition handleAudio (msg : LiveServerMessage) (rest : Task) : Task :=
  match audioDataOf msg with
  | Some audioData =>
      if truthy_string audioData then AwaitPlayAudio audioData rest else rest
  | None => rest
  end.

Definition onmessage (msg : LiveServerMessage) : Task :=
  let rest := handleAudio msg (handleTranscript msg) in
  match toolCall msg with
  | Some tc => forFunctionCalls (functionCalls tc) rest
  | None => rest
  end.

End Dispatch.

(** ** The service object: state, playback scheduler, teardown *)

Module Service.
Import Js Codec Dispatch.

Inductive ContextState : Type := Running | Closed.

(** The fields of [GeminiLiveService] ([true] and [Some] stand for
    non-null), and [stream], the microphone stream that [connect] obtains
    and its callbacks keep.  A non-null [sessionPromise] is the promise of
    the connection whose callbacks are running, hence fulfilled.  Clock
    readings and durations are rationals, in seconds. *)
Record Service : Type := mkService {
  sessionPromise : bool;
  audioContext : option ContextState;
  inputProcessor : bool;
  source : bool;
  outputContext : option ContextState;
  nextStartTime : Q;
  stream : bool
}.

Inductive Event : Type :=
| ToolCallInvoked (c : MotorCommand)      (* config.onToolCall(cmd) *)
| ToolResponse (r : FunctionResponse)     (* session.sendToolResponse(..) *)
| SourceStarted (startTime : Q) (b : AudioBuffer)   (* source.start(startTime) *)
| TranscriptForwarded (t : string) (isUser : bool)  (* config.onTranscript *)
| SourceDisconnected
| ProcessorDisconnected
| AudioContextCloseCalled
| CloseCallback.                          (* config.onClose() *)

Inductive PlayError : Type :=
| InvalidCharacterError                   (* atob *)
| DecodeFailure (e : DecodeError).

Inductive Failure : Type :=
| SinkRejection (reason : Thrown)
| PlaybackFailure (e : PlayError)
| InvalidStateError                       (* close() on a closed context *)
| NotAllowedError.                        (* getUserMedia refused *)

(** How an [async] function ends: its promise is fulfilled, rejected, or
    stays pending because an awaited promise never settles. *)
Inductive Completion : Type :=
| Completed
| Rejected (f : Failure)
| Pending.

(** The constructor. *)
Definition new_service : Service :=
  mkService false None false false (Some Running) 0 false.

(** [connect], up to the point where the session promise is stored;
    [granted] tells whether [getUserMedia] is fulfilled. *)
Definition connect (granted : bool) (st : Service) : Service * Completion :=
  let st1 := mkService (sessionPromise st) (Some Running) (inputProcessor st)
               (source st) (outputContext st) (nextStartTime st) (stream st) in
  if granted then
    (mkService true (audioContext st1) (inputProcessor st1) (source st1)
       (outputContext st1) (nextStartTime st1) true, Completed)
  else (st1, Rejected NotAllowedError).

(** The [onopen] callback. *)
Definition onopen (st : Service) : Service :=
  match audioContext st with
  | None => st
  | Some _ =>
      mkService (sessionPromise st) (audioContext st) true true
        (outputContext st) (nextStartTime st) (stream st)
  end.

(** [Math.max] on two finite numbers. *)
Definition Qmax (a b : Q) : Q :=
  match a ?= b with Lt => b | _ => a end%Q.

Definition set_nextStartTime (st : Service) (t : Q) : Service :=
  mkService (sessionPromise st) (audioContext st) (inputProcessor st)
    (source st) (outputContext st) t (stream st).

(** [playAudio(base64)] when the device clock reads [now].  The sum of
    the last line is taken exactly here; [Double.playAudio] below rounds
    it to binary64 as the code does. *)
Definition playAudio (st : Service) (now : Q) (base64 : string)
  : Service * list Event * option PlayError :=
  match outputContext st with
  | None => (st, [], None)
  | Some _ =>
      match Base64.atob base64 with
      | None => (st, [], Some InvalidCharacterError)
      | Some binaryString =>
          let bytes := Base64.charCodes binaryString in
          match decodeAudioData bytes with
          | inl e => (st, [], Some (DecodeFailure e))
          | inr audioBuffer =>
              let startTime := Qmax now (nextStartTime st) in
              (set_nextStartTime st (startTime + duration audioBuffer),
               [SourceStarted startTime audioBuffer], None)
          end
      end
  end.

(** What the promise returned by [config.onToolCall] does. *)
Inductive SinkOutcome : Type :=
| Fulfil (result : string)
| Reject (reason : Thrown)
| Never.

(** Running a handler: [sink n c] is the outcome of the [n]-th invocation
    of the command sink, on command [c]; [now] is the reading of the
    output clock when the handler reaches [playAudio].

    [sessionPromise?.then(callback)] does not send: the session promise is
    already fulfilled, so the callback is put on the microtask queue and
    runs when the handler next gives up control, at its next [await] or
    at its end.  [queued] holds the sends that wait there.  The sink is
    invoked, and [onTranscript] called, before control is given up;
    [playAudio] reaches [source.start] only after its own [await]. *)
Fixpoint run_from (sink : nat -> MotorCommand -> SinkOutcome) (now : Q)
    (st : Service) (n : nat) (queued : list Event) (t : Task)
  : Service * list Event * Completion :=
  match t with
  | Return => (st, queued, Completed)
  | AwaitToolCall c k =>
      match sink n c with
      | Fulfil result =>
          let '(st', log, r) := run_from sink now st (S n) [] (k result) in
          (st', ToolCallInvoked c :: queued ++ log, r)
      | Reject e =>
          (st, ToolCallInvoked c :: queued, Rejected (SinkRejection e))
      | Never => (st, ToolCallInvoked c :: queued, Pending)
      end
  | SendToolResponse r k =>
      run_from sink now st n
        (queued ++ (if sessionPromise st then [ToolResponse r] else [])) k
  | AwaitPlayAudio base64 k =>
      match playAudio st now base64 with
      | (st1, ev, Some e) => (st1, queued ++ ev, Rejected (PlaybackFailure e))
      | (st1, ev, None) =>
          let '(st', log, c) := run_from sink now st1 n [] k in
          (st', queued ++ ev ++ log, c)
      end
  | OnTranscript t isUser k =>
      let '(st', log, c) := run_from sink now st n queued k in
      (st', TranscriptForwarded t isUser :: log, c)
  end.

(** A handler starts with nothing of its own on the queue. *)
Definition run (sink : nat -> MotorCommand -> SinkOutcome) (now : Q)
    (st : Service) (n : nat) (t : Task) : Service * list Event * Completion :=
  run_from sink now st n [] t.

(** The response to a call that the [n]-th invocation of the sink served. *)
Definition responseTo (results : nat -> MotorCommand -> string) (n : nat)
    (fc : FunctionCall) : Event :=
  ToolResponse (mkFunctionResponse (id fc) (name fc)
                  (results n (motorCommand (args fc)))).

(** The events of a batch of [moveRobot] calls that the sink fulfils one
    after the other, up to the dispatch of the last call, [results i c]
    being the string the [i]-th invocation of the sink is fulfilled with:
    each call is dispatched, then what is queued is sent, which is the
    response to the call before it. *)
Fixpoint served (results : nat -> MotorCommand -> string) (n : nat)
    (queued : list Event) (fcs : list FunctionCall) : list Event :=
  match fcs with
  | [] => []
  | fc :: fcs' =>
      ToolCallInvoked (motorCommand (args fc))
        :: queued ++ served results (S n) [responseTo results n fc] fcs'
  end.

(** What is on the queue after that: the response to the last call. *)
Fixpoint left_queued (results : nat -> MotorCommand -> string) (n : nat)
    (queued : list Event) (fcs : list FunctionCall) : list Event :=
  match fcs with
  | [] => queued
  | fc :: fcs' => left_queued results (S n) [responseTo results n fc] fcs'
  end.

(** The responses issued and the commands dispatched, in order. *)
Fixpoint responses (log : list Event) : list FunctionResponse :=
  match log with
  | [] => []
  | ToolResponse r :: log' => r :: responses log'
  | _ :: log' => responses log'
  end.

Fixpoint invoked (log : list Event) : list MotorCommand :=
  match log with
  | [] => []
  | ToolCallInvoked c :: log' => c :: invoked log'
  | _ :: log' => invoked log'
  end.

Definition isMoveRobot (fc : FunctionCall) : Prop := name fc = "moveRobot"%string.

(** [disconnect()].  [closedRejects] is the platform's answer to
    [close()] on a context that is already closed: the returned promise is
    rejected ([true]) or fulfilled ([false]). *)
Definition disconnect (closedRejects : bool) (st : Service)
  : Service * list Event * Completion :=
  let ev1 := if source st then [SourceDisconnected] else [] in
  let ev2 := if inputProcessor st then [ProcessorDisconnected] else [] in
  match audioContext st with
  | Some Running =>
      (mkService (sessionPromise st) (Some Closed) (inputProcessor st)
         (source st) (outputContext st) (nextStartTime st) (stream st),
       ev1 ++ ev2 ++ [AudioContextCloseCalled; CloseCallback], Completed)
  | Some Closed =>
      if closedRejects then
        (st, ev1 ++ ev2 ++ [AudioContextCloseCalled], Rejected InvalidStateError)
      else
        (st, ev1 ++ ev2 ++ [AudioContextCloseCalled; CloseCallback], Completed)
  | None => (st, ev1 ++ ev2 ++ [CloseCallback], Completed)
  end.

(** Two calls in succession; the second runs on the state the first
    leaves. *)
Definition disconnect_twice (closedRejects : bool) (st : Service)
  : Service * list Event * Completion :=
  let '(st1, log1, _) := disconnect closedRejects st in
  let '(st2, log2, c2) := disconnect closedRejects st1 in
  (st2, log1 ++ log2, c2).

Definition is_close_callback (e : Event) : bool :=
  match e with CloseCallback => true | _ => false end.

Definition close_callbacks (log : list Event) : nat :=
  List.length (filter is_close_callback log).

(** The entries handed to the output device, with their durations. *)
Fixpoint scheduled (log : list Event) : list (Q * Q) :=
  match log with
  | [] => []
  | SourceStarted t b :: log' => (t, duration b) :: scheduled log'
  | _ :: log' => scheduled log'
  end.

End Service.

(** ** The playback scheduler in double precision

    [currentTime], [nextStartTime] and [duration] are IEEE binary64
    numbers, and the sum of [playAudio] is rounded.  [round] sends a
    rational to the nearest binary64 number, ties to even, with the
    subnormal range; sums of 2^1024 and more, which the code turns into
    [Infinity], are left out.  [playAudio] below is [Service.playAudio]
    with that rounding written out; where only the events and the frame of
    the service matter, the exact sum of [Service.playAudio] is used. *)

Module Double.
Import Js Codec Service.
Local Open Scope Q_scope.

(** The exponent [e] of a positive rational: 2^e <= q < 2^(e+1). *)
Definition exponent (q : Q) : Z :=
  let e0 := (Z.log2 (Qnum q) - Z.log2 (Zpos (Qden q)))%Z in
  if Qle_bool (2 ^ e0) q then e0 else (e0 - 1)%Z.

(** The nearest integer, the even one of two that are equally near. *)
Definition nearest_even (x : Q) : Z :=
  let f := Qfloor x in
  match Qcompare (x - inject_Z f) (1 # 2) with
  | Lt => f
  | Gt => (f + 1)%Z
  | Eq => if Z.even f then f else (f + 1)%Z
  end.

(** The spacing of the binary64 numbers around a positive rational. *)
Definition ulp (q : Q) : Q := 2 ^ (Z.max (exponent q) (-1022) - 52).

Definition round_pos (q : Q) : Q :=
  Qred (inject_Z (nearest_even (q / ulp q)) * ulp q).

Definition round (q : Q) : Q :=
  match Qnum q with
  | Z0 => 0
  | Zpos _ => round_pos q
  | Zneg _ => - round_pos (- q)
  end.

(** [a + b] on two binary64 numbers. *)
Definition add (a b : Q) : Q := round (a + b).

(** [audioBuffer.duration]: the length divided by the sample rate, as a
    binary64 number. *)
Definition duration (b : AudioBuffer) : Q := round (Codec.duration b).

(** [playAudio(base64)] when the device clock reads [now]. *)
Definition playAudio (st : Service) (now : Q) (base64 : string)
  : Service * list Event * option PlayError :=
  match outputContext st with
  | None => (st, [], None)
  | Some _ =>
      match Base64.atob base64 with
      | None => (st, [], Some InvalidCharacterError)
      | Some binaryString =>
          let bytes := Base64.charCodes binaryString in
          match decodeAudioData bytes with
          | inl e => (st, [], Some (DecodeFailure e))
          | inr audioBuffer =>
              let startTime := Qmax now (nextStartTime st) in
              (set_nextStartTime st (add startTime (duration audioBuffer)),
               [SourceStarted startTime audioBuffer], None)
          end
      end
  end.

(** The entries handed to the output device, with their durations. *)
Fixpoint scheduled (log : list Event) : list (Q * Q) :=
  match log with
  | [] => []
  | SourceStarted t b :: log' => (t, duration b) :: scheduled log'
  | _ :: log' => scheduled log'
  end.

(** Decoded chunks reaching the scheduler one after the other; each comes
    with the reading of the device clock at that moment. *)
Fixpoint playAll (st : Service) (chunks : list (Q * string))
  : Service * list Event :=
  match chunks with
  | [] => (st, [])
  | (now, base64) :: chunks' =>
      let '(st1, ev, _) := playAudio st now base64 in
      let '(st2, log) := playAll st1 chunks' in
      (st2, ev ++ log)
  end.

(** Entry [n+1] starts no earlier than the exact sum of the start and the
    duration of entry [n]. *)
Fixpoint sequential (entries : list (Q * Q)) : Prop :=
  match entries with
  | [] => True
  | (t, d) :: rest =>
      match rest with
      | [] => True
      | (t', _) :: _ => t + d <= t'
      end /\ sequential rest
  end.

(** Entry [n+1] starts no earlier than the cursor that entry [n] left: the
    rounded sum of its start and its duration. *)
Fixpoint follows_cursor (entries : list (Q * Q)) : Prop :=
  match entries with
  | [] => True
  | (t, d) :: rest =>
      match rest with
      | [] => True
      | (t', _) :: _ => add t d <= t'
      end /\ follows_cursor rest
  end.

End Double.

(** ** Scene analysis ([analyzeScene]) *)

Module Scene.
Import Js.
Local Open Scope string_scope.

(** [Some rest] when [s] is [p] followed by [rest]. *)
Fixpoint dropPrefix (p s : string) : option string :=
  match p with
  | EmptyString => Some s
  | String a p' =>
      match s with
      | EmptyString => None
      | String b s' => if Ascii.eqb a b then dropPrefix p' s' else None
      end
  end.

(** [base64Image.replace(/^data:image\/(png|jpeg|jpg);base64,/, '')]: the
    alternatives are tried in order at the start of the string. *)
Definition cleanBase64 (base64Image : string) : string :=
  match dropPrefix "data:image/" base64Image with
  | None => base64Image
  | Some r =>
      let alt (t : string) :=
        match dropPrefix t r with
        | Some r' => dropPrefix ";base64," r'
        | None => None
        end in
      match alt "png" with
      | Some rest => rest
      | None =>
          match alt "jpeg" with
          | Some rest => rest
          | None =>
              match alt "jpg" with
              | Some rest => rest
              | None => base64Image
              end
          end
      end
  end.

(** The strings that the regular expression matches. *)
Definition headers : list string :=
  ["data:image/png;base64,"; "data:image/jpeg;base64,"; "data:image/jpg;base64,"].

Record Request : Type := mkRequest {
  model : string;
  imageMimeType : string;
  imageData : string;
  prompt : string
}.

Definition analysisPrompt : string :=
  "Analyze this robot camera frame. Identify obstacles, terrain type, and any potential navigation hazards. Be concise.".

Definition requestFor (base64Image : string) : Request :=
  mkRequest "gemini-2.5-flash-image" "image/jpeg" (cleanBase64 base64Image)
    analysisPrompt.

(** What the body of the [try] meets: a response whose [text] may be
    missing, or a thrown value (from the client constructor or from
    [generateContent]). *)
Inductive ModelOutcome : Type :=
| Responded (text : option string)
| Threw (e : Thrown).

(** How the promise of [analyzeScene] settles. *)
Inductive Outcome : Type :=
| Returned (s : string)
| Raised.       (* the [catch] block itself throws a [TypeError] *)

(** ["Analysis failed: " + x] for [x] the [message] property. *)
Definition failureString (message : option string) : string :=
  "Analysis failed: " ++
  match message with Some m => m | None => "undefined" end.

Definition analyzeScene (generateContent : Request -> ModelOutcome)
    (base64Image : string) : Outcome :=
  match generateContent (requestFor base64Image) with
  | Responded (Some t) =>
      Returned (if truthy_string t then t else "No analysis available.")
  | Responded None => Returned "No analysis available."
  | Threw ThrownNullish => Raised
  | Threw (ThrownValue message) => Returned (failureString message)
  end.

End Scene.

(** ** Concrete inputs used below *)

Module Examples.
Import Js Dispatch Service.
Local Open Scope string_scope.

(** A service after [connect] and [onopen]. *)
Definition connected : Service := onopen (fst (connect true new_service)).

Definition forward_a : FunctionCall :=
  mkFunctionCall "a" "moveRobot" (mkArgs (Some "forward") None).

Definition stop_b : FunctionCall :=
  mkFunctionCall "b" "moveRobot" (mkArgs (Some "stop") (Some (Fin 90))).

Definition batch_ab : LiveServerMessage :=
  mkMessage (Some (mkToolCall [forward_a; stop_b])) None.

(** The promise of the first invocation never settles; every later one is
    fulfilled at once. *)
Definition sink_first_pending (i : nat) (_ : MotorCommand) : SinkOutcome :=
  match i with
  | O => Never
  | S _ => Fulfil "ok"
  end.

Definition sink_ok (_ : nat) (_ : MotorCommand) : SinkOutcome := Fulfil "ok".

Definition robot_offline : Thrown := ThrownValue (Some "robot offline").

Definition sink_offline (_ : nat) (_ : MotorCommand) : SinkOutcome :=
  Reject robot_offline.

End Examples.

(** ** Audio capture (the [onaudioprocess] callback set up by [onopen]) *)

Module Capture.
Import Js Codec Service.

(** What is handed to the session. *)
Inductive Outbound : Type :=
| RealtimeInput (media : Blob).     (* session.sendRealtimeInput({ media }) *)

(** One call of the callback on the samples of channel 0:
    [this.sessionPromise?.then(session => session.sendRealtimeInput(..))]. *)
Definition onaudioprocess (st : Service) (inputData : list number)
  : list Outbound :=
  let pcmBlob := createPcmBlob inputData in
  if sessionPromise st then [RealtimeInput pcmBlob] else [].

End Capture.

(** ** Notions used to state further properties *)

Module Notions.
Import Js Dispatch Service.

(** A value within the PWM range of a motor axis. *)
Definition in_pwm_range (n : number) : Prop :=
  match n with
  | Fin q => (-255 <= q /\ q <= 255)%Q
  | _ => False
  end.

(** The calls of a batch that the handler serves. *)
Definition moves (fcs : list FunctionCall) : list FunctionCall :=
  filter (fun fc => (name fc =? "moveRobot")%string) fcs.

Definition id_name (r : FunctionResponse) : string * string :=
  (resp_id r, resp_name r).

(** The transcripts forwarded, in order. *)
Fixpoint transcripts (log : list Event) : list (string * bool) :=
  match log with
  | [] => []
  | TranscriptForwarded t u :: log' => (t, u) :: transcripts log'
  | _ :: log' => transcripts log'
  end.

(** How many of the commands the sink fulfils one after the other, from
    its [n]-th invocation on. *)
Fixpoint fulfilled (sink : nat -> MotorCommand -> SinkOutcome) (n : nat)
    (cs : list MotorCommand) : nat :=
  match cs with
  | [] => 0
  | c :: cs' =>
      match sink n c with
      | Fulfil _ => S (fulfilled sink (S n) cs')
      | _ => 0
      end
  end.

End Notions.

(** * Properties *)

Import Js Dispatch Service.

(** ** Tool-call dispatch *)

Section DispatchFacts.
Local Open Scope string_scope.

Lemma eqb_outside (dir d : string) :
  ~ In dir directions -> In d directions -> (dir =? d) = false.
Proof.
  intros Hout Hin. apply String.eqb_neq. intros ->. exact (Hout Hin).
Qed.

Lemma motorCommand_outside (dir : string) (sp : option number) :
  ~ In dir directions ->
  motorCommand (mkArgs (Some dir) sp) = mkMotorCommand "move" zero zero.
Proof.
  intros Hout. unfold motorCommand. cbn [direction].
  rewrite !(eqb_outside dir) by (assumption || (cbn; tauto)).
  reflexivity.
Qed.

(** C1. A call named [moveRobot] hands the command sink the command
    that the direction table gives for its arguments: forward is
    (+speed, 0), backward (-speed, 0), left (0, -speed), right
    (0, +speed), stop (0, 0); the speed is 200 when the argument is
    missing or falsy and the argument itself otherwise; a direction
    outside the five names, or no direction, gives (0, 0). *)
Theorem moveRobot_direction_table (fc : FunctionCall)
    (fcs : list FunctionCall) (rest : Task) :
  name fc = "moveRobot" ->
  let a := args fc in
  let c := motorCommand a in
  let spd := spd_of a in
  (exists k, forFunctionCalls (fc :: fcs) rest = AwaitToolCall c k) /\
  cmd c = "move" /\
  (speed a = None -> spd = Fin 200) /\
  (forall n, speed a = Some n -> truthy n = false -> spd = Fin 200) /\
  (forall n, speed a = Some n -> truthy n = true -> spd = n) /\
  (direction a = Some "forward" -> throttle c = spd /\ steer c = Fin 0) /\
  (direction a = Some "backward" -> throttle c = neg spd /\ steer c = Fin 0) /\
  (direction a = Some "left" -> throttle c = Fin 0 /\ steer c = neg spd) /\
  (direction a = Some "right" -> throttle c = Fin 0 /\ steer c = spd) /\
  (direction a = Some "stop" -> throttle c = Fin 0 /\ steer c = Fin 0) /\
  (forall dir, direction a = Some dir -> ~ In dir directions ->
     throttle c = Fin 0 /\ steer c = Fin 0) /\
  (direction a = None -> throttle c = Fin 0 /\ steer c = Fin 0).
Proof.
  intros Hname a c spd. subst c spd.
  split.
  { cbn [forFunctionCalls]. rewrite Hname. cbn. eexists. reflexivity. }
  destruct a as [dir sp]. cbn [speed direction].
  split.
  { unfold motorCommand. cbn [direction]. destruct dir as [d|]; [|reflexivity].
    repeat match goal with
           | |- context [if ?b then _ else _] => destruct b
           end; reflexivity. }
  split; [intros ->; reflexivity|].
  split; [intros n -> Hn; unfold spd_of; cbn; now rewrite Hn|].
  split; [intros n -> Hn; unfold spd_of; cbn; now rewrite Hn|].
  split; [intros ->; split; reflexivity|].
  split; [intros ->; split; reflexivity|].
  split; [intros ->; split; reflexivity|].
  split; [intros ->; split; reflexivity|].
  split; [intros ->; split; reflexivity|].
  split; [|intros ->; split; reflexivity].
  intros d -> Hout. now rewrite motorCommand_outside.
Qed.

Lemma moveRobot_direction_table_witness :
  let fc := mkFunctionCall "call-1" "moveRobot"
              (mkArgs (Some "left") (Some (Fin 150))) in
  name fc = "moveRobot" /\
  throttle (motorCommand (args fc)) = Fin 0 /\
  steer (motorCommand (args fc)) = neg (spd_of (args fc)) /\
  spd_of (args fc) = Fin 150.
Proof.
  intros fc.
  pose proof (moveRobot_direction_table fc [] Return eq_refl) as H.
  cbv zeta in H.
  destruct H as (_ & _ & _ & _ & Hs & _ & _ & Hl & _).
  split; [reflexivity|].
  destruct (Hl eq_refl) as [Ht Hst].
  split; [exact Ht|]. split; [exact Hst|].
  exact (Hs (Fin 150) eq_refl eq_refl).
Defined.

Lemma forFunctionCalls_skip (pre post : list FunctionCall)
    (fc : FunctionCall) (rest : Task) :
  name fc <> "moveRobot" ->
  forFunctionCalls (pre ++ fc :: post) rest = forFunctionCalls (pre ++ post) rest.
Proof.
  intros Hname. induction pre as [|p pre IH]; cbn [app forFunctionCalls].
  - apply String.eqb_neq in Hname. now rewrite Hname.
  - destruct (name p =? "moveRobot"); [|exact IH].
    f_equal. now rewrite IH.
Qed.

(** C9. A function call whose name is not [moveRobot] is skipped: the
    handler of an event is the handler of the same event without that
    call, so under every sink the same commands are dispatched and the
    same responses sent; an event whose only call it is dispatches
    nothing and responds to nothing. *)
Theorem other_function_calls_skipped (pre post : list FunctionCall)
    (fc : FunctionCall) (sc : option ServerContent) :
  name fc <> "moveRobot" ->
  onmessage (mkMessage (Some (mkToolCall (pre ++ fc :: post))) sc)
    = onmessage (mkMessage (Some (mkToolCall (pre ++ post))) sc) /\
  onmessage (mkMessage (Some (mkToolCall [fc])) sc)
    = onmessage (mkMessage None sc) /\
  forall sink now st n,
    run sink now st n (onmessage (mkMessage (Some (mkToolCall (pre ++ fc :: post))) sc))
    = run sink now st n (onmessage (mkMessage (Some (mkToolCall (pre ++ post))) sc)).
Proof.
  intros Hname.
  assert (H : onmessage (mkMessage (Some (mkToolCall (pre ++ fc :: post))) sc)
              = onmessage (mkMessage (Some (mkToolCall (pre ++ post))) sc)).
  { unfold onmessage. cbn [toolCall functionCalls].
    now apply forFunctionCalls_skip. }
  split; [exact H|]. split.
  - unfold onmessage. cbn [toolCall functionCalls].
    exact (forFunctionCalls_skip [] [] fc _ Hname).
  - intros. now rewrite H.
Qed.

Lemma other_function_calls_skipped_witness :
  let fc := mkFunctionCall "c" "setLights" (mkArgs (Some "forward") None) in
  name fc <> "moveRobot" /\
  run Examples.sink_ok 0 Examples.connected 0
    (onmessage (mkMessage (Some (mkToolCall ([Examples.forward_a] ++ fc :: [Examples.stop_b]))) None))
  = run Examples.sink_ok 0 Examples.connected 0
      (onmessage (mkMessage (Some (mkToolCall ([Examples.forward_a] ++ [Examples.stop_b]))) None)).
Proof.
  intros fc.
  assert (Hname : name fc <> "moveRobot") by (intros H; discriminate H).
  split; [exact Hname|].
  exact (proj2 (proj2 (other_function_calls_skipped [Examples.forward_a]
                         [Examples.stop_b] fc None Hname))
           Examples.sink_ok 0%Q Examples.connected 0%nat).
Defined.

End DispatchFacts.

Section HandlerFacts.

Variable sink : nat -> MotorCommand -> SinkOutcome.
Variable results : nat -> MotorCommand -> string.
Variable now : Q.

Lemma responses_app (l1 l2 : list Event) :
  responses (l1 ++ l2) = responses l1 ++ responses l2.
Proof.
  induction l1 as [|e l1 IH]; [reflexivity|].
  destruct e; cbn; now rewrite ?IH.
Qed.

Lemma invoked_app (l1 l2 : list Event) :
  invoked (l1 ++ l2) = invoked l1 ++ invoked l2.
Proof.
  induction l1 as [|e l1 IH]; [reflexivity|].
  destruct e; cbn; now rewrite ?IH.
Qed.

(** Sent or still queued, the responses of a served batch are those of
    its calls, in call order, after what was queued before. *)
Lemma responses_served (fcs : list FunctionCall) :
  forall n q,
  map (fun r => (resp_id r, resp_name r))
    (responses (served results n q fcs ++ left_queued results n q fcs))
  = map (fun r => (resp_id r, resp_name r)) (responses q)
    ++ map (fun fc => (id fc, name fc)) fcs.
Proof.
  induction fcs as [|fc fcs IH]; intros n q.
  - cbn. now rewrite app_nil_r.
  - cbn [served left_queued map]. rewrite <- app_comm_cons. cbn [responses].
    rewrite <- app_assoc. rewrite responses_app, map_app, IH. reflexivity.
Qed.

Lemma invoked_served (fcs : list FunctionCall) :
  forall n q,
  invoked q = [] ->
  invoked (served results n q fcs ++ left_queued results n q fcs)
  = map (fun fc => motorCommand (args fc)) fcs.
Proof.
  induction fcs as [|fc fcs IH]; intros n q Hq.
  - cbn. exact Hq.
  - cbn [served left_queued map]. rewrite <- app_comm_cons. cbn [invoked].
    rewrite <- app_assoc. rewrite invoked_app, Hq, IH by reflexivity. reflexivity.
Qed.

Lemma playAudio_events (st : Service) (base64 : string) :
  responses (snd (fst (playAudio st now base64))) = [] /\
  invoked (snd (fst (playAudio st now base64))) = [].
Proof.
  unfold playAudio.
  destruct (outputContext st); [|now cbn].
  destruct (Base64.atob base64); [|now cbn].
  destruct (Codec.decodeAudioData _); now cbn.
Qed.

(** What follows the loop calls the sink no more and adds no response to
    those queued, and does not depend on the number of earlier sink
    invocations. *)
Lemma run_after_loop (msg : LiveServerMessage) (st : Service) (n : nat)
    (q : list Event) :
  let t := handleAudio msg (handleTranscript msg) in
  run_from sink now st n q t = run_from sink now st 0 q t /\
  responses (snd (fst (run_from sink now st n q t))) = responses q /\
  invoked (snd (fst (run_from sink now st n q t))) = invoked q.
Proof.
  unfold handleAudio, handleTranscript.
  destruct (audioDataOf msg) as [a|]; destruct (textOf msg) as [t|];
    try destruct (truthy_string a); try destruct (truthy_string t);
    cbn [run_from]; try (cbn; now auto);
    pose proof (playAudio_events st a) as [Hr Hi];
    destruct (playAudio st now a) as [[s l] [e|]]; cbn in *;
    rewrite ?responses_app, ?invoked_app, ?Hr, ?Hi, ?app_nil_r; cbn;
    rewrite ?app_nil_r; now auto.
Qed.

(** A prefix of [moveRobot] calls that the sink fulfils is served call by
    call; the state is not touched. *)
Lemma run_served (fcs : list FunctionCall) (rest : Task) (st : Service) :
  forall n q,
  Forall isMoveRobot fcs ->
  sessionPromise st = true ->
  (forall i c, n <= i < n + List.length fcs -> sink i c = Fulfil (results i c))%nat ->
  run_from sink now st n q (forFunctionCalls fcs rest)
  = let '(st', log, c) :=
      run_from sink now st (n + List.length fcs) (left_queued results n q fcs) rest in
    (st', served results n q fcs ++ log, c).
Proof.
  induction fcs as [|fc fcs IH]; intros n q Hall Hs Hsink.
  - cbn. rewrite Nat.add_0_r. now destruct (run_from sink now st n q rest) as [[? ?] ?].
  - inversion Hall as [|? ? Hfc Hall']; subst.
    cbn [forFunctionCalls]. apply String.eqb_eq in Hfc. rewrite Hfc.
    cbn [run_from]. rewrite Hsink by (cbn; lia). rewrite Hs. cbn [app].
    rewrite IH; [|assumption|assumption|intros; apply Hsink; cbn; lia].
    cbn [List.length served left_queued]. unfold responseTo.
    replace (n + S (List.length fcs))%nat with (S n + List.length fcs)%nat by lia.
    destruct (run_from sink now st (S n + List.length fcs) _ rest) as [[st' log] c].
    rewrite <- app_comm_cons. rewrite <- app_assoc. reflexivity.
Qed.

(** After such a prefix, a call whose sink promise is not fulfilled stops
    the handler; the response that was queued is still sent. *)
Lemma run_stopped (pre post : list FunctionCall) (fc : FunctionCall)
    (rest : Task) (st : Service) :
  forall n q,
  Forall isMoveRobot pre ->
  isMoveRobot fc ->
  sessionPromise st = true ->
  (forall i c, n <= i < n + List.length pre -> sink i c = Fulfil (results i c))%nat ->
  run_from sink now st n q (forFunctionCalls (pre ++ fc :: post) rest)
  = match sink (n + List.length pre)%nat (motorCommand (args fc)) with
    | Fulfil _ => run_from sink now st n q (forFunctionCalls (pre ++ fc :: post) rest)
    | Reject e =>
        (st, served results n q pre
               ++ ToolCallInvoked (motorCommand (args fc))
               :: left_queued results n q pre,
         Rejected (SinkRejection e))
    | Never =>
        (st, served results n q pre
               ++ ToolCallInvoked (motorCommand (args fc))
               :: left_queued results n q pre,
         Pending)
    end.
Proof.
  induction pre as [|p pre IH]; intros n q Hall Hfc Hs Hsink.
  - cbn [app List.length served left_queued]. rewrite Nat.add_0_r.
    cbn [forFunctionCalls]. apply String.eqb_eq in Hfc. rewrite Hfc.
    cbn [run_from].
    destruct (sink n (motorCommand (args fc))); reflexivity.
  - inversion Hall as [|? ? Hp Hall']; subst.
    destruct (sink (n + List.length (p :: pre))%nat (motorCommand (args fc))) eqn:E;
      [reflexivity| |].
    + cbn [app forFunctionCalls]. apply String.eqb_eq in Hp. rewrite Hp.
      cbn [run_from]. rewrite Hsink by (cbn; lia). rewrite Hs. cbn [app].
      rewrite IH; [|assumption|assumption|assumption|intros; apply Hsink; cbn; lia].
      replace (S n + List.length pre)%nat with (n + List.length (p :: pre))%nat by (cbn; lia).
      rewrite E. cbn [served left_queued]. unfold responseTo.
      rewrite <- app_comm_cons. rewrite <- app_assoc. reflexivity.
    + cbn [app forFunctionCalls]. apply String.eqb_eq in Hp. rewrite Hp.
      cbn [run_from]. rewrite Hsink by (cbn; lia). rewrite Hs. cbn [app].
      rewrite IH; [|assumption|assumption|assumption|intros; apply Hsink; cbn; lia].
      replace (S n + List.length pre)%nat with (n + List.length (p :: pre))%nat by (cbn; lia).
      rewrite E. cbn [served left_queued]. unfold responseTo.
      rewrite <- app_comm_cons. rewrite <- app_assoc. reflexivity.
Qed.

End HandlerFacts.

Section ToolCallTheorems.

Lemma onmessage_split (fcs : list FunctionCall) (sc : option ServerContent) :
  onmessage (mkMessage (Some (mkToolCall fcs)) sc)
  = forFunctionCalls fcs (onmessage (mkMessage None sc)).
Proof. reflexivity. Qed.

Lemma run_onmessage_counter sink now st n q (sc : option ServerContent) :
  run_from sink now st n q (onmessage (mkMessage None sc))
  = run_from sink now st 0 q (onmessage (mkMessage None sc)) /\
  responses (snd (fst (run_from sink now st n q (onmessage (mkMessage None sc)))))
  = responses q /\
  invoked (snd (fst (run_from sink now st n q (onmessage (mkMessage None sc)))))
  = invoked q.
Proof. exact (run_after_loop sink now (mkMessage None sc) st n q). Qed.

(** C3, as the code has it.  The calls of a batch are not dispatched
    concurrently: they are dispatched one at a time in call order, a call
    only once the sink promise of the call before it is fulfilled.  When
    the sink fulfils every call, the N responses are sent in call order
    and each carries the id and the name of its call and the string its
    sink promise was fulfilled with; the response to a call is sent from a
    promise callback, after the next call of the batch has been dispatched
    (the last one once the handler gives up control again).  While the
    promise of one call stays pending, no later call is dispatched and,
    once the response to the call before it is sent, no further response
    is sent. *)
Theorem tool_calls_served_in_call_order
    (sink : nat -> MotorCommand -> SinkOutcome)
    (results : nat -> MotorCommand -> string) (now : Q) (st : Service)
    (n : nat) (fcs : list FunctionCall) (sc : option ServerContent) :
  Forall isMoveRobot fcs ->
  sessionPromise st = true ->
  ((forall i c, sink i c = Fulfil (results i c)) ->
   let r := run sink now st n (onmessage (mkMessage (Some (mkToolCall fcs)) sc)) in
   let after := run_from sink now st (n + List.length fcs)
                  (left_queued results n [] fcs)
                  (onmessage (mkMessage None sc)) in
   r = (fst (fst after), served results n [] fcs ++ snd (fst after), snd after) /\
   map (fun r => (resp_id r, resp_name r)) (responses (snd (fst r)))
     = map (fun fc => (id fc, name fc)) fcs /\
   invoked (snd (fst r)) = map (fun fc => motorCommand (args fc)) fcs) /\
  (forall pre fc post,
     fcs = pre ++ fc :: post ->
     (forall i c, n <= i < n + List.length pre -> sink i c = Fulfil (results i c))%nat ->
     sink (n + List.length pre)%nat (motorCommand (args fc)) = Never ->
     run sink now st n (onmessage (mkMessage (Some (mkToolCall fcs)) sc))
     = (st, served results n [] pre
              ++ ToolCallInvoked (motorCommand (args fc))
              :: left_queued results n [] pre,
        Pending)).
Proof.
  intros Hall Hs. split.
  - intros Hsink r after. subst r after. unfold run.
    rewrite onmessage_split.
    rewrite (run_served sink results now fcs _ st n [] Hall Hs)
      by (intros; apply Hsink).
    destruct (run_onmessage_counter sink now st (n + List.length fcs)
                (left_queued results n [] fcs) sc) as (_ & Hr & Hi).
    destruct (run_from sink now st (n + List.length fcs) _
                (onmessage (mkMessage None sc))) as [[st' tail] c].
    cbn [fst snd] in *. split; [reflexivity|].
    pose proof (responses_served results fcs n []) as Rs.
    pose proof (invoked_served results fcs n [] eq_refl) as Is.
    rewrite responses_app, map_app in Rs. rewrite invoked_app in Is.
    rewrite responses_app, invoked_app, map_app, Hr, Hi. auto.
  - intros pre fc post -> Hsink Hnever.
    apply Forall_app in Hall. destruct Hall as [Hpre Hrest].
    inversion Hrest as [|? ? Hfc _]; subst.
    unfold run. rewrite onmessage_split.
    rewrite (run_stopped sink results now pre post fc _ st n [] Hpre Hfc Hs Hsink).
    now rewrite Hnever.
Qed.

Lemma tool_calls_served_in_call_order_witness :
  let fcs := [Examples.forward_a; Examples.stop_b] in
  Forall isMoveRobot fcs /\
  sessionPromise Examples.connected = true /\
  map (fun r => (resp_id r, resp_name r))
    (responses (snd (fst (run Examples.sink_ok 0 Examples.connected 0
                            (onmessage Examples.batch_ab)))))
  = [("a", "moveRobot"); ("b", "moveRobot")]%string.
Proof.
  intros fcs.
  assert (Hall : Forall isMoveRobot fcs) by (repeat constructor).
  split; [exact Hall|]. split; [reflexivity|].
  destruct (tool_calls_served_in_call_order Examples.sink_ok
              (fun _ _ => "ok"%string) 0 Examples.connected 0 fcs None
              Hall eq_refl) as [Hfull _].
  destruct (Hfull (fun _ _ => eq_refl)) as (_ & Hresp & _).
  exact Hresp.
Defined.

(** C3 as stated fails on a batch of two calls: while the sink promise
    of the first call stays pending, the second call, which the sink would
    fulfil at once, is not dispatched and gets no response; a sink that
    settles the second call before the first never gets that call. *)
Lemma second_call_waits_for_first :
  run Examples.sink_first_pending 0 Examples.connected 0
    (onmessage Examples.batch_ab)
  = (Examples.connected,
     [ToolCallInvoked (mkMotorCommand "move" (Fin 200) (Fin 0))],
     Pending)
  /\ Examples.sink_first_pending 1 (motorCommand (args Examples.stop_b))
     = Fulfil "ok".
Proof. split; reflexivity. Qed.

(** C6, as the code has it.  A rejection of the sink promise is not
    caught: the handler's own promise is rejected with the reason of the
    sink, the calls before it keep their responses (the last of these is
    sent after the rejected call was dispatched), and neither the rejected
    call nor any later call of the event gets a response; the later calls
    are not dispatched and the audio and transcript of the event are not
    processed. *)
Theorem sink_rejection_propagates
    (sink : nat -> MotorCommand -> SinkOutcome)
    (results : nat -> MotorCommand -> string) (now : Q) (st : Service)
    (n : nat) (pre post : list FunctionCall) (fc : FunctionCall)
    (sc : option ServerContent) (e : Thrown) :
  Forall isMoveRobot pre ->
  isMoveRobot fc ->
  sessionPromise st = true ->
  (forall i c, n <= i < n + List.length pre -> sink i c = Fulfil (results i c))%nat ->
  sink (n + List.length pre)%nat (motorCommand (args fc)) = Reject e ->
  let r := run sink now st n
             (onmessage (mkMessage (Some (mkToolCall (pre ++ fc :: post))) sc)) in
  r = (st, served results n [] pre
             ++ ToolCallInvoked (motorCommand (args fc))
             :: left_queued results n [] pre,
       Rejected (SinkRejection e)) /\
  map (fun r => (resp_id r, resp_name r)) (responses (snd (fst r)))
    = map (fun fc => (id fc, name fc)) pre /\
  invoked (snd (fst r))
    = map (fun fc => motorCommand (args fc)) (pre ++ [fc]).
Proof.
  intros Hpre Hfc Hs Hsink Hrej r. subst r. unfold run.
  rewrite onmessage_split.
  rewrite (run_stopped sink results now pre post fc _ st n [] Hpre Hfc Hs Hsink).
  rewrite Hrej. split; [reflexivity|].
  cbn [fst snd].
  pose proof (responses_served results pre n []) as Rs.
  pose proof (invoked_served results pre n [] eq_refl) as Is.
  rewrite responses_app, map_app in Rs. rewrite invoked_app in Is.
  rewrite responses_app, invoked_app, !map_app. cbn [responses invoked map].
  split; [exact Rs|].
  assert (Hq : forall m q l, invoked (left_queued results m q l) = []
                             \/ invoked (left_queued results m q l) = invoked q).
  { intros m q l. revert m q. induction l as [|x l IH]; intros m q; [now right|].
    cbn [left_queued]. destruct (IH (S m) [responseTo results m x]) as [H|H];
      left; rewrite H; reflexivity. }
  destruct (Hq n (@nil Event) pre) as [Hl|Hl]; rewrite Hl in *; cbn [invoked] in *;
    rewrite app_nil_r in Is; rewrite Is; reflexivity.
Qed.

Lemma sink_rejection_propagates_witness :
  isMoveRobot Examples.forward_a /\
  sessionPromise Examples.connected = true /\
  run Examples.sink_offline 0 Examples.connected 0
    (onmessage (mkMessage (Some (mkToolCall [Examples.forward_a; Examples.stop_b]))
                  None))
  = (Examples.connected,
     [ToolCallInvoked (motorCommand (args Examples.forward_a))],
     Rejected (SinkRejection Examples.robot_offline)).
Proof.
  split; [reflexivity|]. split; [reflexivity|].
  refine (proj1 (sink_rejection_propagates Examples.sink_offline
                   (fun _ _ => "ok"%string) 0 Examples.connected 0 []
                   [Examples.stop_b] Examples.forward_a None
                   Examples.robot_offline (Forall_nil _) eq_refl eq_refl _ eq_refl)).
  intros i c H. cbn in H. lia.
Defined.

(** C6 as stated fails on a single call whose sink promise is rejected:
    no response is issued and the handler's promise is rejected with the
    reason of the sink. *)
Lemma rejected_call_gets_no_response :
  let r := run Examples.sink_offline 0 Examples.connected 0
             (onmessage (mkMessage (Some (mkToolCall [Examples.forward_a])) None)) in
  responses (snd (fst r)) = [] /\
  snd r = Rejected (SinkRejection Examples.robot_offline).
Proof. split; reflexivity. Qed.

(** C10. Only the first part of the model turn is looked at: the
    handler of a message is the handler of the same message with every
    later part removed, whatever audio or text those parts carry. *)
Theorem only_first_part_inspected (tc : option ToolCall) (p : Part)
    (later : list Part) :
  onmessage (mkMessage tc
    (Some (mkServerContent (Some (mkModelTurn (Some (p :: later)))))))
  = onmessage (mkMessage tc
      (Some (mkServerContent (Some (mkModelTurn (Some [p])))))) /\
  onmessage (mkMessage tc
    (Some (mkServerContent (Some (mkModelTurn (Some (mkPart None None :: later)))))))
  = onmessage (mkMessage tc None) /\
  forall sink now st n,
    run sink now st n (onmessage (mkMessage tc
      (Some (mkServerContent (Some (mkModelTurn (Some (p :: later))))))))
    = run sink now st n (onmessage (mkMessage tc
        (Some (mkServerContent (Some (mkModelTurn (Some [p]))))))).
Proof. repeat split. Qed.

End ToolCallTheorems.

(** ** Teardown *)

Section TeardownFacts.

(** C7, as the code has it.  [disconnect] has no guard against
    repetition.  On a service whose capture context is not yet closed, one
    call ends without error, calls [close] on the capture context when
    there is one and invokes the close callback exactly once.  A call on a
    service whose capture context is already closed calls [close] again:
    it fails with the platform's error and skips the close callback when
    the platform rejects a second [close], and invokes the close callback
    once more otherwise.  No call touches the output context or the
    microphone stream. *)
Theorem disconnect_not_guarded (closedRejects : bool) (st : Service) :
  let '(st1, log1, c1) := disconnect closedRejects st in
  outputContext st1 = outputContext st /\
  stream st1 = stream st /\
  (source st = true -> In SourceDisconnected log1) /\
  (inputProcessor st = true -> In ProcessorDisconnected log1) /\
  (audioContext st = Some Running -> In AudioContextCloseCalled log1) /\
  (audioContext st <> Some Closed ->
   c1 = Completed /\ close_callbacks log1 = 1%nat /\
   audioContext st1 = option_map (fun _ => Closed) (audioContext st)) /\
  (audioContext st = Some Closed ->
   st1 = st /\ In AudioContextCloseCalled log1 /\
   if closedRejects
   then c1 = Rejected InvalidStateError /\ close_callbacks log1 = 0%nat
   else c1 = Completed /\ close_callbacks log1 = 1%nat).
Proof.
  unfold disconnect, close_callbacks.
  destruct st as [sp ac ip src oc nst str]; cbn [audioContext source
    inputProcessor outputContext stream sessionPromise nextStartTime].
  destruct ac as [[|]|]; destruct closedRejects; destruct src; destruct ip;
    cbn; repeat split; try congruence; try discriminate; intuition congruence.
Qed.

Lemma disconnect_not_guarded_witness :
  audioContext Examples.connected <> Some Closed /\
  snd (disconnect true Examples.connected) = Completed /\
  close_callbacks (snd (fst (disconnect true Examples.connected))) = 1%nat.
Proof.
  assert (H : audioContext Examples.connected <> Some Closed)
    by (intros E; discriminate E).
  split; [exact H|].
  pose proof (disconnect_not_guarded true Examples.connected) as T.
  destruct (disconnect true Examples.connected) as [[st1 log1] c1].
  destruct T as (_ & _ & _ & _ & _ & T & _).
  destruct (T H) as (Hc & Hn & _).
  split; [exact Hc | exact Hn].
Defined.

(** C7 as stated fails on a connected service: of two calls in
    succession, the second either fails (the platform rejects [close] on a
    closed context) or invokes the close callback a second time; in both
    cases the output context is still running and the microphone stream
    still held. *)
Lemma second_disconnect_fails_or_repeats :
  (let '(st2, log, c2) := disconnect_twice true Examples.connected in
   c2 = Rejected InvalidStateError /\
   outputContext st2 = Some Running /\ stream st2 = true) /\
  (let '(st2, log, c2) := disconnect_twice false Examples.connected in
   c2 = Completed /\ close_callbacks log = 2%nat /\
   outputContext st2 = Some Running /\ stream st2 = true).
Proof. repeat split. Qed.

End TeardownFacts.

(** ** Orders on the clock and projections of the log *)

Section PlaybackFacts.
Local Open Scope Q_scope.

Lemma Qmax_ge_l (a b : Q) : a <= Qmax a b.
Proof.
  unfold Qmax. destruct (a ?= b) eqn:E.
  - apply Qle_refl.
  - apply Qlt_le_weak. now apply Qlt_alt.
  - apply Qle_refl.
Qed.

Lemma Qmax_ge_r (a b : Q) : b <= Qmax a b.
Proof.
  unfold Qmax. destruct (a ?= b) eqn:E.
  - apply Qeq_alt in E. rewrite E. apply Qle_refl.
  - apply Qle_refl.
  - apply Qlt_le_weak. now apply Qgt_alt.
Qed.

Lemma scheduled_app (l1 l2 : list Event) :
  scheduled (l1 ++ l2) = (scheduled l1 ++ scheduled l2)%list.
Proof.
  induction l1 as [|e l1 IH]; [reflexivity|].
  destruct e; cbn; now rewrite ?IH.
Qed.

End PlaybackFacts.

(** ** Scene analysis *)

Section SceneFacts.
Import Scene.
Local Open Scope string_scope.

Lemma dropPrefix_Some (p s r : string) :
  dropPrefix p s = Some r -> s = p ++ r.
Proof.
  revert s. induction p as [|a p IH]; intros s H; cbn in *.
  - now injection H as ->.
  - destruct s as [|b s]; [discriminate|].
    destruct (Ascii.eqb_spec a b) as [->|]; [|discriminate].
    now rewrite (IH _ H).
Qed.

Lemma cleanBase64_other (s : string) :
  (forall h rest, In h headers -> s <> h ++ rest) -> cleanBase64 s = s.
Proof.
  intros Hno. unfold cleanBase64.
  destruct (dropPrefix "data:image/" s) as [r|] eqn:E0; [|reflexivity].
  apply dropPrefix_Some in E0.
  destruct (dropPrefix "png" r) as [r1|] eqn:E1.
  - destruct (dropPrefix ";base64," r1) as [r2|] eqn:E2.
    + apply dropPrefix_Some in E1, E2. subst.
      exfalso. apply (Hno "data:image/png;base64," r2); [cbn; tauto|reflexivity].
    + destruct (dropPrefix "jpeg" r) as [r3|] eqn:E3.
      { apply dropPrefix_Some in E1, E3. subst. discriminate. }
      destruct (dropPrefix "jpg" r) as [r4|] eqn:E4; [|reflexivity].
      apply dropPrefix_Some in E1, E4. subst. discriminate.
  - destruct (dropPrefix "jpeg" r) as [r3|] eqn:E3.
    + destruct (dropPrefix ";base64," r3) as [r2|] eqn:E2.
      * apply dropPrefix_Some in E3, E2. subst.
        exfalso. apply (Hno "data:image/jpeg;base64," r2); [cbn; tauto|reflexivity].
      * destruct (dropPrefix "jpg" r) as [r4|] eqn:E4; [|reflexivity].
        apply dropPrefix_Some in E3, E4. subst. discriminate.
    + destruct (dropPrefix "jpg" r) as [r4|] eqn:E4; [|reflexivity].
      destruct (dropPrefix ";base64," r4) as [r2|] eqn:E2; [|reflexivity].
      apply dropPrefix_Some in E4, E2. subst.
      exfalso. apply (Hno "data:image/jpg;base64," r2); [cbn; tauto|reflexivity].
Qed.

Lemma cleanBase64_header (h payload : string) :
  In h headers -> cleanBase64 (h ++ payload) = payload.
Proof.
  intros [<-|[<-|[<-|[]]]]; reflexivity.
Qed.

(** C8, as the code has it.  [analyzeScene] is a function of the image
    and of the answer to its one request.  It removes a leading header
    only when it is [data:image/png;base64,], [data:image/jpeg;base64,] or
    [data:image/jpg;base64,], and sends every other input unchanged, with
    the fixed prompt.  It returns the text of the response when that text
    is not empty and [No analysis available.] otherwise; when a value
    other than [null] or [undefined] is thrown it returns
    [Analysis failed: ] followed by the message of that value, and does
    not raise. *)
Theorem analyzeScene_behaviour (generateContent : Request -> ModelOutcome)
    (base64Image : string) :
  requestFor base64Image
    = mkRequest "gemini-2.5-flash-image" "image/jpeg" (cleanBase64 base64Image)
        analysisPrompt /\
  (forall h payload, In h headers -> cleanBase64 (h ++ payload) = payload) /\
  ((forall h rest, In h headers -> base64Image <> h ++ rest) ->
   cleanBase64 base64Image = base64Image) /\
  (forall t, generateContent (requestFor base64Image) = Responded (Some t) ->
             t <> "" -> analyzeScene generateContent base64Image = Returned t) /\
  (generateContent (requestFor base64Image) = Responded (Some "") \/
   generateContent (requestFor base64Image) = Responded None ->
   analyzeScene generateContent base64Image = Returned "No analysis available.") /\
  (forall m, generateContent (requestFor base64Image) = Threw (ThrownValue (Some m)) ->
             analyzeScene generateContent base64Image
             = Returned ("Analysis failed: " ++ m)) /\
  (generateContent (requestFor base64Image) <> Threw ThrownNullish ->
   exists s, analyzeScene generateContent base64Image = Returned s) /\
  (forall generateContent',
     generateContent' (requestFor base64Image)
       = generateContent (requestFor base64Image) ->
     analyzeScene generateContent' base64Image
       = analyzeScene generateContent base64Image).
Proof.
  split; [reflexivity|].
  split; [intros h payload; apply cleanBase64_header|].
  split; [apply cleanBase64_other|].
  unfold analyzeScene.
  split.
  { intros t -> Ht. destruct t; [congruence|reflexivity]. }
  split.
  { intros [->| ->]; reflexivity. }
  split.
  { intros m ->. reflexivity. }
  split.
  { intros H. destruct (generateContent (requestFor base64Image)) as [[t|]|[|m]];
      try (eexists; reflexivity). congruence. }
  intros g' ->. reflexivity.
Qed.

Lemma analyzeScene_behaviour_witness :
  let img := "data:image/jpeg;base64,/9j/4AAQ" in
  let answer (r : Request) :=
    if imageData r =? "/9j/4AAQ" then Responded (Some "Clear path ahead.")
    else Threw (ThrownValue (Some "bad image")) in
  answer (requestFor img) = Responded (Some "Clear path ahead.") /\
  "Clear path ahead." <> "" /\
  analyzeScene answer img = Returned "Clear path ahead.".
Proof.
  intros img answer.
  assert (H1 : answer (requestFor img) = Responded (Some "Clear path ahead."))
    by reflexivity.
  assert (H2 : "Clear path ahead." <> "") by (intros E; discriminate E).
  split; [exact H1|]. split; [exact H2|].
  destruct (analyzeScene_behaviour answer img) as (_ & _ & _ & H & _).
  exact (H _ H1 H2).
Defined.

(** C8 as stated fails on a WebP data URL: its header is not removed,
    the request carries the whole string. *)
Lemma webp_header_not_stripped :
  imageData (requestFor "data:image/webp;base64,UklGRg==")
  = "data:image/webp;base64,UklGRg==".
Proof. reflexivity. Qed.

End SceneFacts.

(** ** Base64 *)

Section Base64Facts.
Import Base64.

Lemma list_ind3 (A : Type) (P : list A -> Prop) :
  P [] -> (forall a, P [a]) -> (forall a b, P [a; b]) ->
  (forall a b c l, P l -> P (a :: b :: c :: l)) ->
  forall l, P l.
Proof.
  intros H0 H1 H2 H3 l.
  enough (H : P l /\ (forall a, P (a :: l)) /\ (forall a b, P (a :: b :: l)))
    by exact (proj1 H).
  induction l as [|x l (IH0 & IH1 & IH2)].
  - auto.
  - repeat split; auto.
Qed.

Lemma digit_facts (v : Z) :
  is_sextet v ->
  value (digit v) = Some v /\
  Ascii.eqb (digit v) pad = false /\
  is_whitespace (digit v) = false.
Proof.
  intros Hv. unfold is_sextet in Hv.
  assert (Hk : exists k, v = Z.of_nat k /\ (k < 64)%nat)
    by (exists (Z.to_nat v); lia).
  destruct Hk as (k & -> & Hk). clear Hv.
  do 64 (destruct k as [|k]; [vm_compute; auto|]).
  lia.
Qed.

Lemma strip_padding_digit (v : Z) (cs : list ascii) :
  is_sextet v -> strip_padding (digit v :: cs) = digit v :: strip_padding cs.
Proof.
  intros Hv. destruct (digit_facts v Hv) as (_ & Hp & _).
  cbn [strip_padding].
  replace (is_padding_tail (digit v :: cs)) with false; [reflexivity|].
  destruct cs as [|c2 [|c3 cs]]; cbn [is_padding_tail]; now rewrite ?Hp.
Qed.

Lemma filter_digit (v : Z) (cs : list ascii) :
  is_sextet v ->
  filter (fun c => negb (is_whitespace c)) (digit v :: cs)
  = digit v :: filter (fun c => negb (is_whitespace c)) cs.
Proof.
  intros Hv. destruct (digit_facts v Hv) as (_ & _ & Hw).
  cbn [filter]. now rewrite Hw.
Qed.

Lemma values_digit (v : Z) (cs : list ascii) :
  is_sextet v ->
  values (digit v :: cs)
  = match values cs with Some vs => Some (v :: vs) | None => None end.
Proof.
  intros Hv. destruct (digit_facts v Hv) as (Hval & _).
  cbn [values]. now rewrite Hval.
Qed.

Lemma sextet_ranges (a b c : Z) :
  is_byte a -> is_byte b -> is_byte c ->
  is_sextet (a / 4) /\ is_sextet (a mod 4 * 16) /\
  is_sextet (a mod 4 * 16 + b / 16) /\ is_sextet (b mod 16 * 4) /\
  is_sextet (b mod 16 * 4 + c / 64) /\ is_sextet (c mod 64).
Proof.
  unfold is_byte, is_sextet. intros Ha Hb Hc.
  repeat split; Z.div_mod_to_equations; lia.
Qed.

Lemma regroup (a b c : Z) :
  is_byte a -> is_byte b -> is_byte c ->
  a / 4 * 4 + (a mod 4 * 16 + b / 16) / 16 = a /\
  a / 4 * 4 + (a mod 4 * 16) / 16 = a /\
  (a mod 4 * 16 + b / 16) mod 16 * 16 + (b mod 16 * 4 + c / 64) / 4 = b /\
  (a mod 4 * 16 + b / 16) mod 16 * 16 + (b mod 16 * 4) / 4 = b /\
  (b mod 16 * 4 + c / 64) mod 4 * 64 + c mod 64 = c.
Proof.
  unfold is_byte. intros Ha Hb Hc.
  repeat split; Z.div_mod_to_equations; lia.
Qed.

Lemma values_digits (vs : list Z) :
  Forall is_sextet vs -> values (map digit vs) = Some vs.
Proof.
  induction 1 as [|v vs Hv _ IH]; [reflexivity|].
  cbn [map]. rewrite values_digit by assumption. now rewrite IH.
Qed.

Lemma filter_pad (cs : list ascii) :
  filter (fun c => negb (is_whitespace c)) (pad :: cs)
  = pad :: filter (fun c => negb (is_whitespace c)) cs.
Proof. reflexivity. Qed.

Lemma byte_cons (a : Z) (l : list Z) :
  Forall is_byte (a :: l) -> is_byte a /\ Forall is_byte l.
Proof. intros H. inversion H; auto. Qed.

(** What [atob] meets on the output of [encode]: no whitespace, a length
    that is a multiple of four, and, once the padding is dropped, the
    digits of the sextets, which decode to the bytes. *)
Lemma encode_facts (bs : list Z) :
  Forall is_byte bs ->
  filter (fun c => negb (is_whitespace c)) (encode bs) = encode bs /\
  Z.of_nat (List.length (encode bs)) mod 4 = 0 /\
  strip_padding (encode bs) = map digit (sextets bs) /\
  Forall is_sextet (sextets bs) /\
  Z.of_nat (List.length (sextets bs)) mod 4 <> 1 /\
  decode (sextets bs) = bs.
Proof.
  induction bs as [|a|a b|a b c l IH] using list_ind3; intros Hb.
  - do 3 (split; [reflexivity|]). split; [constructor|].
    split; [cbn; lia | reflexivity].
  - apply byte_cons in Hb. destruct Hb as [Ha _].
    destruct (sextet_ranges a a a Ha Ha Ha) as (S1 & S2 & _).
    destruct (regroup a a a Ha Ha Ha) as (_ & R2 & _).
    cbn [encode sextets decode map].
    rewrite !filter_digit, !filter_pad, !strip_padding_digit by assumption.
    do 3 (split; [reflexivity|]).
    split; [repeat (apply Forall_cons; [assumption|]); apply Forall_nil|].
    split; [cbn; lia|]. now rewrite R2.
  - apply byte_cons in Hb. destruct Hb as [Ha Hb].
    apply byte_cons in Hb. destruct Hb as [Hb _].
    destruct (sextet_ranges a b b Ha Hb Hb) as (S1 & _ & S3 & S4 & _).
    destruct (regroup a b b Ha Hb Hb) as (R1 & _ & _ & R4 & _).
    cbn [encode sextets decode map].
    rewrite !filter_digit, !filter_pad, !strip_padding_digit by assumption.
    do 3 (split; [reflexivity|]).
    split; [repeat (apply Forall_cons; [assumption|]); apply Forall_nil|].
    split; [cbn; lia|]. now rewrite R1, R4.
  - apply byte_cons in Hb. destruct Hb as [Ha Hb].
    apply byte_cons in Hb. destruct Hb as [Hb Hc].
    apply byte_cons in Hc. destruct Hc as [Hc Hl].
    destruct (IH Hl) as (IH1 & IH2 & IH3 & IH4 & IH5 & IH6).
    destruct (sextet_ranges a b c Ha Hb Hc) as (S1 & _ & S3 & _ & S5 & S6).
    destruct (regroup a b c Ha Hb Hc) as (R1 & _ & R3 & _ & R5).
    cbn [encode sextets decode map].
    rewrite !filter_digit, !strip_padding_digit by assumption.
    rewrite IH1, IH3, IH6, R1, R3, R5.
    split; [reflexivity|]. split.
    { cbn [List.length]. rewrite !Nat2Z.inj_succ.
      revert IH2. generalize (Z.of_nat (List.length (encode l))). intros z Hz.
      Z.div_mod_to_equations. lia. }
    split; [reflexivity|]. split.
    { repeat (apply Forall_cons; [assumption|]). assumption. }
    split; [|reflexivity].
    cbn [List.length]. rewrite !Nat2Z.inj_succ.
    revert IH5. generalize (Z.of_nat (List.length (sextets l))). intros z Hz.
    Z.div_mod_to_equations. lia.
Qed.

Lemma charCodes_bytes (s : string) : Forall is_byte (charCodes s).
Proof.
  unfold charCodes. apply Forall_forall. intros b Hin.
  apply in_map_iff in Hin. destruct Hin as (c & <- & _).
  pose proof (N_ascii_bounded c). unfold is_byte. lia.
Qed.

Lemma fromCharCodes_charCodes (s : string) : fromCharCodes (charCodes s) = s.
Proof.
  unfold fromCharCodes, charCodes. rewrite map_map.
  rewrite (map_ext _ (fun c => c)).
  - rewrite map_id. apply string_of_list_ascii_of_string.
  - intros c. rewrite N2Z.id. apply ascii_N_embedding.
Qed.

Lemma charCodes_fromCharCodes (bs : list Z) :
  Forall is_byte bs -> charCodes (fromCharCodes bs) = bs.
Proof.
  intros Hb. unfold fromCharCodes, charCodes.
  rewrite list_ascii_of_string_of_list_ascii, map_map.
  induction Hb as [|b bs Hb _ IH]; [reflexivity|].
  cbn [map]. rewrite IH. f_equal.
  unfold is_byte in Hb. rewrite N_ascii_embedding by lia. lia.
Qed.

(** [atob] undoes [btoa] on every binary string. *)
Lemma atob_btoa (binary : string) : atob (btoa binary) = Some binary.
Proof.
  unfold atob, btoa. rewrite list_ascii_of_string_of_list_ascii.
  destruct (encode_facts (charCodes binary) (charCodes_bytes binary))
    as (H1 & H2 & H3 & H4 & H5 & H6).
  rewrite H1, H2. cbn [Z.eqb]. rewrite H3, length_map.
  apply Z.eqb_neq in H5. rewrite H5.
  rewrite (values_digits _ H4), H6.
  now rewrite fromCharCodes_charCodes.
Qed.

End Base64Facts.

(** ** PCM codec *)

Section CodecFacts.
Import Codec.
Local Open Scope Q_scope.

Lemma Qle_bool_sign (q : Q) : Qle_bool 0 q = (0 <=? Qnum q)%Z.
Proof. unfold Qle_bool. cbn. now rewrite Z.mul_1_r. Qed.

(** Truncation toward zero is the floor of a value that is not negative
    and the ceiling of a negative one. *)
Lemma trunc_truncate (q : Q) : trunc q = CodecSpec.truncate q.
Proof.
  unfold trunc, CodecSpec.truncate. rewrite Qle_bool_sign.
  destruct q as [n d]. cbn [Qnum Qden].
  destruct (Z.leb_spec 0 n) as [Hn|Hn].
  - cbn [Qfloor]. apply Z.quot_div_nonneg; lia.
  - unfold Qceiling. cbn [Qopp Qfloor Qnum Qden].
    rewrite <- Z.quot_div_nonneg by lia.
    rewrite Z.quot_opp_l by lia. lia.
Qed.

Lemma truncate_comp (p q : Q) :
  p == q -> CodecSpec.truncate p = CodecSpec.truncate q.
Proof.
  intros E. unfold CodecSpec.truncate.
  assert (Hs : Qle_bool 0 p = Qle_bool 0 q).
  { destruct (Qle_bool 0 p) eqn:Hp, (Qle_bool 0 q) eqn:Hq; try reflexivity.
    - apply Qle_bool_iff in Hp. rewrite E in Hp. apply Qle_bool_iff in Hp. congruence.
    - apply Qle_bool_iff in Hq. rewrite <- E in Hq. apply Qle_bool_iff in Hq. congruence. }
  rewrite Hs. destruct (Qle_bool 0 q).
  - now apply Qfloor_comp.
  - now apply Qceiling_comp.
Qed.

(** The truncation of a value that is not negative lies at most one
    below it, that of a value that is not positive at most one above. *)
Lemma truncate_nonneg (q : Q) :
  0 <= q ->
  (0 <= CodecSpec.truncate q)%Z /\
  inject_Z (CodecSpec.truncate q) <= q /\
  q < inject_Z (CodecSpec.truncate q) + 1.
Proof.
  intros Hq. unfold CodecSpec.truncate.
  assert (Hb : Qle_bool 0 q = true) by now apply Qle_bool_iff.
  rewrite Hb. split.
  - change 0%Z with (Qfloor 0). now apply Qfloor_resp_le.
  - split; [apply Qfloor_le|].
    rewrite <- (inject_Z_plus _ 1). apply Qlt_floor.
Qed.

Lemma truncate_nonpos (q : Q) :
  q <= 0 ->
  (CodecSpec.truncate q <= 0)%Z /\
  q <= inject_Z (CodecSpec.truncate q) /\
  inject_Z (CodecSpec.truncate q) - 1 < q.
Proof.
  intros Hq. unfold CodecSpec.truncate.
  destruct (Qle_bool 0 q) eqn:Hb.
  - apply Qle_bool_iff in Hb.
    assert (E : q == 0) by (apply Qle_antisym; assumption).
    rewrite (Qfloor_comp _ _ E). change (Qfloor 0) with 0%Z.
    rewrite E. repeat split; try lia; try apply Qle_refl.
  - split.
    + change 0%Z with (Qceiling 0). now apply Qceiling_resp_le.
    + split; [apply Qle_ceiling|].
      pose proof (Qceiling_lt q) as H.
      unfold Zminus in H. rewrite inject_Z_plus in H. exact H.
Qed.

Lemma wrap16_id (z : Z) : is_int16 z -> wrap16 z = z.
Proof.
  unfold is_int16, wrap16. intros Hz. rewrite Z.mod_small; lia.
Qed.

Lemma min_fin (a b : Q) :
  Js.min (Fin a) (Fin b)
  = if match b ?= a with Lt => true | _ => false end then Fin b else Fin a.
Proof. reflexivity. Qed.

Lemma max_fin (a b : Q) :
  Js.max (Fin a) (Fin b)
  = if match a ?= b with Lt => true | _ => false end then Fin b else Fin a.
Proof. reflexivity. Qed.

Lemma lt_fin (a b : Q) :
  Js.lt (Fin a) (Fin b) = match a ?= b with Lt => true | _ => false end.
Proof. reflexivity. Qed.

Lemma truncate_scaled_neg (q : Q) :
  -1 < q -> q < 0 ->
  is_int16 (CodecSpec.truncate (q * 32768)) /\
  q * 32768 <= inject_Z (CodecSpec.truncate (q * 32768)) /\
  inject_Z (CodecSpec.truncate (q * 32768)) - 1 < q * 32768.
Proof.
  intros Hlo Hhi.
  assert (Hs : q * 32768 <= 0) by lra.
  destruct (truncate_nonpos _ Hs) as (Hk & Hle & Hlt).
  split; [|split; assumption].
  unfold is_int16. split; [|lia].
  rewrite Zle_Qle. change (inject_Z (-32768)) with (-32768). lra.
Qed.

Lemma truncate_scaled_nonneg (q : Q) :
  0 <= q -> q <= 1 ->
  is_int16 (CodecSpec.truncate (q * 32767)) /\
  inject_Z (CodecSpec.truncate (q * 32767)) <= q * 32767 /\
  q * 32767 < inject_Z (CodecSpec.truncate (q * 32767)) + 1.
Proof.
  intros Hlo Hhi.
  assert (Hs : 0 <= q * 32767) by lra.
  destruct (truncate_nonneg _ Hs) as (Hk & Hle & Hlt).
  split; [|split; assumption].
  unfold is_int16. split; [lia|].
  rewrite Zle_Qle. change (inject_Z 32767) with 32767. lra.
Qed.

(** The four cases of the conversion of a finite sample. *)
Lemma encodeSample_cases (q : Q) :
  (1 <= q /\ encodeSample (Fin q) = 32767%Z) \/
  (q <= -1 /\ encodeSample (Fin q) = (-32768)%Z) \/
  (-1 < q /\ q < 0 /\
   encodeSample (Fin q) = CodecSpec.truncate (q * 32768)) \/
  (0 <= q /\ q < 1 /\
   encodeSample (Fin q) = CodecSpec.truncate (q * 32767)).
Proof.
  unfold encodeSample. rewrite min_fin.
  destruct (q ?= 1) eqn:E1.
  - left. apply Qeq_alt in E1. split; [rewrite E1; apply Qle_refl|reflexivity].
  - apply Qlt_alt in E1. rewrite max_fin.
    destruct (-1 ?= q) eqn:E2.
    + right. left. apply Qeq_alt in E2.
      split; [rewrite <- E2; apply Qle_refl|reflexivity].
    + apply Qlt_alt in E2. right. right. rewrite lt_fin.
      destruct (q ?= 0) eqn:E3.
      * right. apply Qeq_alt in E3.
        assert (H0 : 0 <= q) by (rewrite E3; apply Qle_refl).
        destruct (truncate_scaled_nonneg q H0 (Qlt_le_weak _ _ E1)) as (Hr & _).
        cbn [scale toInt16]. rewrite trunc_truncate, wrap16_id by assumption. auto.
      * left. apply Qlt_alt in E3.
        destruct (truncate_scaled_neg q E2 E3) as (Hr & _).
        cbn [scale toInt16]. rewrite trunc_truncate, wrap16_id by assumption. auto.
      * right. apply Qgt_alt in E3.
        assert (H0 : 0 <= q) by now apply Qlt_le_weak.
        destruct (truncate_scaled_nonneg q H0 (Qlt_le_weak _ _ E1)) as (Hr & _).
        cbn [scale toInt16]. rewrite trunc_truncate, wrap16_id by assumption. auto.
    + right. left. apply Qgt_alt in E2.
      split; [now apply Qlt_le_weak|reflexivity].
  - left. apply Qgt_alt in E1. split; [now apply Qlt_le_weak|reflexivity].
Qed.

Lemma encodeSample_int16 (x : number) : is_int16 (encodeSample x).
Proof.
  assert (Hc : forall z, (z = 0 \/ z = 32767 \/ z = -32768)%Z -> is_int16 z)
    by (unfold is_int16; lia).
  destruct x as [|[|]|q]; [apply Hc; auto ..|].
  destruct (encodeSample_cases q) as [(_ & ->)|[(_ & ->)|[(H1 & H2 & ->)|(H1 & H2 & ->)]]].
  - apply Hc; auto.
  - apply Hc; auto.
  - exact (proj1 (truncate_scaled_neg q H1 H2)).
  - exact (proj1 (truncate_scaled_nonneg q H1 (Qlt_le_weak _ _ H2))).
Qed.

Lemma Qle_bool_false (a b : Q) : b < a -> Qle_bool a b = false.
Proof.
  intros H. destruct (Qle_bool a b) eqn:E; [|reflexivity].
  apply Qle_bool_iff in E. lra.
Qed.

Lemma Qle_bool_true (a b : Q) : a <= b -> Qle_bool a b = true.
Proof. intros H. now apply Qle_bool_iff. Qed.

(** The conversion of the code is the one the specification words. *)
Lemma sample_refines (x : number) :
  match CodecSpec.sample x with
  | Some z => encodeSample x = z
  | None => x = NaN
  end.
Proof.
  destruct x as [|[|]|q]; try reflexivity.
  unfold CodecSpec.sample, CodecSpec.clamp, CodecSpec.scaled. cbn [option_map].
  destruct (encodeSample_cases q) as [(H & ->)|[(H & ->)|[(H1 & H2 & ->)|(H1 & H2 & ->)]]].
  - rewrite (Qle_bool_false q (-1)) by lra. now rewrite (Qle_bool_true 1 q).
  - now rewrite (Qle_bool_true q (-1)).
  - rewrite (Qle_bool_false q (-1)), (Qle_bool_false 1 q) by lra.
    now rewrite (Qle_bool_false 0 q).
  - rewrite (Qle_bool_false q (-1)), (Qle_bool_false 1 q) by lra.
    now rewrite (Qle_bool_true 0 q).
Qed.

(** Two samples with the same value convert to the same integer. *)
Lemma encodeSample_same (x y : number) :
  CodecSpec.same x y -> encodeSample x = encodeSample y.
Proof.
  destruct x as [|a|p], y as [|b|q]; cbn [CodecSpec.same]; try tauto.
  - now intros ->.
  - intros E.
    destruct (encodeSample_cases p) as [(P & ->)|[(P & ->)|[(P1 & P2 & ->)|(P1 & P2 & ->)]]];
    destruct (encodeSample_cases q) as [(H & ->)|[(H & ->)|[(H1 & H2 & ->)|(H1 & H2 & ->)]]];
      try reflexivity; try (exfalso; lra);
      apply truncate_comp; now rewrite E.
Qed.

Lemma int16Bytes_pack (z : Z) : is_int16 z -> int16Bytes z = CodecSpec.pack z.
Proof.
  unfold is_int16, int16Bytes, CodecSpec.pack. intros Hz.
  destruct (Z.ltb_spec z 0).
  - replace ((z + 65536) mod 256)%Z with (z mod 256)%Z
      by (Z.div_mod_to_equations; lia).
    replace ((z + 65536) / 256)%Z with ((z / 256) mod 256)%Z
      by (Z.div_mod_to_equations; lia).
    reflexivity.
  - replace ((z / 256) mod 256)%Z with (z / 256)%Z
      by (Z.div_mod_to_equations; lia).
    reflexivity.
Qed.

Lemma int16Bytes_bytes (z : Z) : Forall Base64.is_byte (int16Bytes z).
Proof.
  unfold int16Bytes, Base64.is_byte.
  repeat (apply Forall_cons; [Z.div_mod_to_equations; lia|]). apply Forall_nil.
Qed.

Lemma pcmBytes_bytes (xs : list number) : Forall Base64.is_byte (pcmBytes xs).
Proof.
  unfold pcmBytes. induction xs as [|x xs IH]; [constructor|].
  cbn [map flat_map]. apply Forall_app. split; [apply int16Bytes_bytes|exact IH].
Qed.

(** Reading the packed bytes as an [Int16Array] gives the integers back. *)
Lemma int16View_pcmBytes (xs : list number) :
  int16View (pcmBytes xs) = Some (map encodeSample xs).
Proof.
  unfold pcmBytes. induction xs as [|x xs IH]; [reflexivity|].
  cbn [map flat_map int16Bytes app int16View]. rewrite IH.
  do 2 f_equal.
  pose proof (encodeSample_int16 x) as Hx. unfold is_int16 in Hx.
  destruct (Z.ltb_spec (encodeSample x mod 256 + 256 * ((encodeSample x / 256) mod 256)) 32768)%Z;
    Z.div_mod_to_equations; lia.
Qed.

Lemma Qmake_32768 (k : Z) : k # 32768 == inject_Z k * (1 # 32768).
Proof. unfold Qeq. cbn. lia. Qed.

(** The error of one sample through the codec. *)
Lemma sample_error (q : Q) :
  -1 <= q -> q <= 1 ->
  let y := encodeSample (Fin q) # 32768 in
  Qabs (y - q) < 2 # 32768 /\
  (q < 0 -> Qabs (y - q) < 1 # 32768) /\
  (1 <= q -> Qabs (y - q) == 1 # 32768).
Proof.
  intros Hlo Hhi y. subst y. rewrite Qmake_32768.
  destruct (encodeSample_cases q) as [(H & ->)|[(H & ->)|[(H1 & H2 & ->)|(H1 & H2 & ->)]]].
  - assert (E : q == 1) by lra.
    assert (Ey : inject_Z 32767 * (1 # 32768) - q == - (1 # 32768)) by (rewrite E; reflexivity).
    rewrite Ey. cbn [Qabs Qopp Z.abs Qnum Qden Z.opp].
    repeat split; intros; try reflexivity; lra.
  - assert (E : q == -1) by lra.
    assert (Ey : inject_Z (-32768) * (1 # 32768) - q == 0) by (rewrite E; reflexivity).
    rewrite Ey. repeat split; intros; try reflexivity; lra.
  - destruct (truncate_scaled_neg q H1 H2) as (_ & Hle & Hlt).
    repeat split; intros; try lra; apply Qabs_Qlt_condition; split; lra.
  - destruct (truncate_scaled_nonneg q H1 (Qlt_le_weak _ _ H2)) as (_ & Hle & Hlt).
    repeat split; intros; try lra; apply Qabs_Qlt_condition; split; lra.
Qed.

Lemma encode_refines (xs : list number) :
  match CodecSpec.encode xs with
  | Some bytes => pcmBytes xs = bytes
  | None => In NaN xs
  end.
Proof.
  induction xs as [|x xs IH]; [reflexivity|].
  cbn [CodecSpec.encode]. pose proof (sample_refines x) as Hx.
  destruct (CodecSpec.sample x) as [z|]; [|left; now symmetry].
  destruct (CodecSpec.encode xs) as [bytes|]; [|now right].
  unfold pcmBytes in *. cbn [map flat_map]. rewrite IH, Hx.
  f_equal. apply int16Bytes_pack. rewrite <- Hx. apply encodeSample_int16.
Qed.

Lemma createPcmBlob_same (xs ys : list number) :
  Forall2 CodecSpec.same xs ys -> createPcmBlob xs = createPcmBlob ys.
Proof.
  intros H. unfold createPcmBlob, pcmBytes. do 4 f_equal.
  induction H as [|x y xs ys Hxy _ IH]; [reflexivity|].
  cbn [map]. now rewrite IH, (encodeSample_same x y Hxy).
Qed.

(** What [playAudio] hands to the output device when it is given the
    text that [createPcmBlob] produced. *)
Lemma playAudio_createPcmBlob (xs : list number) (st : Service) (now : Q) :
  xs <> [] -> outputContext st <> None ->
  snd (fst (playAudio st now (Codec.data (createPcmBlob xs))))
  = [SourceStarted (Qmax now (nextStartTime st))
       (mkAudioBuffer (map (fun x => Fin (encodeSample x # 32768)) xs) 24000)].
Proof.
  intros Hxs Hctx. unfold playAudio, createPcmBlob. cbn [Codec.data].
  destruct (outputContext st); [|congruence].
  rewrite atob_btoa, charCodes_fromCharCodes by apply pcmBytes_bytes.
  unfold decodeAudioData. rewrite int16View_pcmBytes.
  destruct xs as [|x xs]; [congruence|].
  cbn [map fst snd]. now rewrite map_map.
Qed.

(** Reading the two bytes of every 16-bit integer gives the integers
    back. *)
Lemma int16View_int16Bytes (zs : list Z) :
  Forall is_int16 zs -> int16View (flat_map int16Bytes zs) = Some zs.
Proof.
  induction 1 as [|z zs Hz _ IH]; [reflexivity|].
  cbn [flat_map int16Bytes app int16View]. rewrite IH.
  do 2 f_equal. unfold is_int16 in Hz.
  destruct (Z.ltb_spec (z mod 256 + 256 * ((z / 256) mod 256)) 32768)%Z;
    Z.div_mod_to_equations; lia.
Qed.

Lemma flat_map_pack (zs : list Z) :
  Forall is_int16 zs -> flat_map CodecSpec.pack zs = flat_map int16Bytes zs.
Proof.
  induction 1 as [|z zs Hz _ IH]; [reflexivity|].
  cbn [flat_map]. now rewrite IH, (int16Bytes_pack z Hz).
Qed.

(** The decoder on the packed bytes of 16-bit integers. *)
Lemma decodeAudioData_int16Bytes (zs : list Z) :
  zs <> [] -> Forall is_int16 zs ->
  decodeAudioData (flat_map int16Bytes zs)
  = inr (mkAudioBuffer (map (fun z => Fin (z # 32768)) zs) 24000).
Proof.
  intros Hzs Hint. unfold decodeAudioData.
  rewrite (int16View_int16Bytes zs Hint).
  destruct zs as [|z zs]; [congruence|reflexivity].
Qed.

Lemma decodeToFloat_values (zs : list Z) :
  Forall2 Qeq (map (fun z => z # 32768) zs) (CodecSpec.decodeToFloat zs).
Proof.
  unfold CodecSpec.decodeToFloat.
  induction zs as [|a l IH]; [constructor|].
  cbn [map]. constructor; [|exact IH].
  rewrite Qmake_32768. reflexivity.
Qed.

(** C5. The encoder is the conversion that the specification words:
    every sample that is not NaN is clamped to [-1,1], scaled by 32767
    when not negative and by 32768 when negative, and truncated, and the
    result is a 16-bit signed integer (NaN is stored as 0); the integers
    are packed low byte first and read back unchanged.  The decoder
    succeeds on the packed bytes of every non-empty list of 16-bit
    integers, and on the bytes of every non-empty encoded frame, and
    yields each 16-bit integer divided by 32768; whenever it succeeds its
    samples are the 16-bit integers of the bytes divided by 32768.
    Samples of equal value give identical output. *)
Theorem pcm_codec_follows_contract (xs : list number) :
  (forall x, match CodecSpec.sample x with
             | Some z => encodeSample x = z /\ is_int16 z
             | None => x = NaN /\ encodeSample x = 0%Z
             end) /\
  match CodecSpec.encode xs with
  | Some bytes => pcmBytes xs = bytes
  | None => In NaN xs
  end /\
  Codec.data (createPcmBlob xs) = Base64.btoa (Base64.fromCharCodes (pcmBytes xs)) /\
  Base64.atob (Codec.data (createPcmBlob xs))
    = Some (Base64.fromCharCodes (pcmBytes xs)) /\
  int16View (pcmBytes xs) = Some (map encodeSample xs) /\
  (forall zs,
     zs <> [] -> Forall is_int16 zs ->
     decodeAudioData (flat_map CodecSpec.pack zs)
     = inr (mkAudioBuffer (map (fun z => Fin (z # 32768)) zs) 24000) /\
     Forall2 Qeq (map (fun z => z # 32768) zs) (CodecSpec.decodeToFloat zs)) /\
  (xs <> [] ->
   decodeAudioData (pcmBytes xs)
   = inr (mkAudioBuffer (map (fun x => Fin (encodeSample x # 32768)) xs) 24000)) /\
  (forall bytes b,
     decodeAudioData bytes = inr b ->
     exists zs, int16View bytes = Some zs /\
                channelData b = map (fun z => Fin (z # 32768)) zs /\
                Forall2 Qeq (map (fun z => z # 32768) zs)
                  (CodecSpec.decodeToFloat zs)) /\
  (forall ys, Forall2 CodecSpec.same xs ys -> createPcmBlob xs = createPcmBlob ys).
Proof.
  split.
  { intros x. pose proof (sample_refines x) as Hx.
    destruct (CodecSpec.sample x) as [z|].
    - split; [exact Hx|]. rewrite <- Hx. apply encodeSample_int16.
    - subst x. split; reflexivity. }
  split; [apply encode_refines|].
  split; [reflexivity|].
  split; [apply atob_btoa|].
  split; [apply int16View_pcmBytes|].
  split.
  { intros zs Hzs Hint. split; [|apply decodeToFloat_values].
    rewrite (flat_map_pack zs Hint). now apply decodeAudioData_int16Bytes. }
  split.
  { intros Hxs. unfold decodeAudioData. rewrite int16View_pcmBytes.
    destruct xs as [|x xs]; [congruence|].
    cbn [map]. now rewrite map_map. }
  split; [|apply createPcmBlob_same].
  intros bytes b Hdec. unfold decodeAudioData in Hdec.
  destruct (int16View bytes) as [[|z zs]|]; try discriminate.
  injection Hdec as <-. exists (z :: zs).
  split; [reflexivity|]. split; [reflexivity|].
  apply decodeToFloat_values.
Qed.

Lemma pcm_codec_follows_contract_witness :
  ([-32768; 12000; 32767]%Z <> [] /\
   Forall is_int16 [-32768; 12000; 32767]%Z /\
   decodeAudioData [0; 128; 224; 46; 255; 127]%Z
   = inr (mkAudioBuffer
            [Fin (-32768 # 32768); Fin (12000 # 32768); Fin (32767 # 32768)]
            24000)) /\
  ([Fin (1 # 2); Fin (-1)] <> [] /\
   decodeAudioData [255; 63; 0; 128]%Z
   = inr (mkAudioBuffer [Fin (16383 # 32768); Fin (-32768 # 32768)] 24000)) /\
  (Forall2 CodecSpec.same [Fin (1 # 2); Fin (-1)] [Fin (2 # 4); Fin (-3 # 3)] /\
   createPcmBlob [Fin (1 # 2); Fin (-1)] = createPcmBlob [Fin (2 # 4); Fin (-3 # 3)]).
Proof.
  assert (H1 : [-32768; 12000; 32767]%Z <> []) by (intros E; discriminate E).
  assert (H2 : Forall is_int16 [-32768; 12000; 32767]%Z).
  { repeat (apply Forall_cons; [unfold is_int16; lia|]). apply Forall_nil. }
  assert (H3 : [Fin (1 # 2); Fin (-1)] <> []) by (intros E; discriminate E).
  assert (H4 : Forall2 CodecSpec.same [Fin (1 # 2); Fin (-1)]
                 [Fin (2 # 4); Fin (-3 # 3)])
    by (repeat constructor).
  pose proof (pcm_codec_follows_contract [Fin (1 # 2); Fin (-1)])
    as (_ & _ & _ & _ & _ & Hdec & Hframe & _ & Hsame).
  split; [|split].
  - split; [exact H1|]. split; [exact H2|].
    exact (proj1 (Hdec _ H1 H2)).
  - split; [exact H3|]. exact (Hframe H3).
  - split; [exact H4|]. exact (Hsame _ H4).
Defined.

(** C4, as the code has it.  For samples in [-1,1], playing back the
    encoded text reproduces each sample within 2/32768 (strictly), and a
    negative sample within 1/32768 (strictly). *)
Theorem codec_round_trip_error (xs : list Q) (st : Service) (now : Q) :
  xs <> [] ->
  outputContext st <> None ->
  Forall (fun q => -1 <= q /\ q <= 1) xs ->
  exists ys,
    snd (fst (playAudio st now (Codec.data (createPcmBlob (map Fin xs)))))
    = [SourceStarted (Qmax now (nextStartTime st))
         (mkAudioBuffer (map Fin ys) 24000)] /\
    Forall2 (fun x y => Qabs (y - x) < 2 # 32768 /\
                        (x < 0 -> Qabs (y - x) < 1 # 32768)) xs ys.
Proof.
  intros Hxs Hctx Hrange.
  exists (map (fun q => encodeSample (Fin q) # 32768) xs). split.
  - rewrite playAudio_createPcmBlob; [|now destruct xs|assumption].
    now rewrite !map_map.
  - clear Hxs. induction Hrange as [|q xs [Hlo Hhi] _ IH]; [constructor|].
    cbn [map]. constructor; [|exact IH].
    destruct (sample_error q Hlo Hhi) as (H2 & H1 & _). auto.
Qed.

Lemma codec_round_trip_error_witness :
  [1 # 2; -(1 # 3)] <> [] /\
  outputContext new_service <> None /\
  Forall (fun q => -1 <= q /\ q <= 1) [1 # 2; -(1 # 3)] /\
  exists ys,
    snd (fst (playAudio new_service 0
                (Codec.data (createPcmBlob (map Fin [1 # 2; -(1 # 3)])))))
    = [SourceStarted (Qmax 0 (nextStartTime new_service))
         (mkAudioBuffer (map Fin ys) 24000)] /\
    Forall2 (fun x y => Qabs (y - x) < 2 # 32768 /\
                        (x < 0 -> Qabs (y - x) < 1 # 32768))
      [1 # 2; -(1 # 3)] ys.
Proof.
  assert (H1 : [1 # 2; -(1 # 3)] <> []) by (intros E; discriminate E).
  assert (H2 : outputContext new_service <> None) by (intros E; discriminate E).
  assert (H3 : Forall (fun q => -1 <= q /\ q <= 1) [1 # 2; -(1 # 3)]).
  { repeat (apply Forall_cons; [split; intros E; discriminate E|]). apply Forall_nil. }
  split; [exact H1|]. split; [exact H2|]. split; [exact H3|].
  exact (codec_round_trip_error [1 # 2; -(1 # 3)] new_service 0 H1 H2 H3).
Defined.

(** C4 as stated fails on the sample 65535/65536: it is encoded as
    32766 and played back as 32766/32768, which is 3/65536 away. *)
Lemma round_trip_off_by_more_than_one_step :
  let x := 65535 # 65536 in
  -1 <= x /\ x <= 1 /\
  snd (fst (playAudio new_service 0 (Codec.data (createPcmBlob [Fin x]))))
  = [SourceStarted 0 (mkAudioBuffer [Fin (32766 # 32768)] 24000)] /\
  ~ Qabs ((32766 # 32768) - x) <= 1 # 32768.
Proof.
  cbv zeta. split; [intros E; discriminate E|]. split; [intros E; discriminate E|].
  split; [reflexivity|].
  intros H. apply (Qle_not_lt _ _ H). reflexivity.
Qed.

End CodecFacts.

(** ** Playback scheduler *)

Section SchedulerFacts.
Import Codec.
Local Open Scope Q_scope.

Lemma nearest_even_near (x : Q) :
  Qabs (inject_Z (Double.nearest_even x) - x) <= 1 # 2.
Proof.
  unfold Double.nearest_even.
  pose proof (Qfloor_le x) as Hlo. pose proof (Qlt_floor x) as Hhi.
  rewrite inject_Z_plus in Hhi. change (inject_Z 1) with 1 in Hhi.
  apply Qabs_Qle_condition.
  destruct (Qcompare (x - inject_Z (Qfloor x)) (1 # 2)) eqn:E.
  - apply Qeq_alt in E.
    destruct (Z.even (Qfloor x));
      [|rewrite inject_Z_plus; change (inject_Z 1) with 1]; split; lra.
  - apply Qlt_alt in E. split; lra.
  - apply Qgt_alt in E. rewrite inject_Z_plus. change (inject_Z 1) with 1.
    split; lra.
Qed.

Lemma ulp_pos (q : Q) : 0 < Double.ulp q.
Proof. unfold Double.ulp. apply Qpower_0_lt. reflexivity. Qed.

Lemma round_pos_error (q : Q) :
  Qabs (Double.round_pos q - q) <= (1 # 2) * Double.ulp q.
Proof.
  unfold Double.round_pos. rewrite Qred_correct.
  pose proof (ulp_pos q) as Hu. set (u := Double.ulp q) in *.
  pose proof (nearest_even_near (q / u)) as Hn.
  set (n := inject_Z (Double.nearest_even (q / u))) in *.
  assert (E : n * u - q == (n - q / u) * u) by (field; lra).
  rewrite E, Qabs_Qmult, (Qabs_pos u) by lra.
  apply Qmult_le_compat_r; [exact Hn|lra].
Qed.

(** Rounding moves a rational by at most half the spacing of the binary64
    numbers around it. *)
Lemma round_error (q : Q) :
  Qabs (Double.round q - q) <= (1 # 2) * Double.ulp (Qabs q).
Proof.
  destruct q as [[|p|p] d]; unfold Double.round; cbn [Qnum].
  - assert (E : 0 - (0 # d) == 0) by (unfold Qeq; cbn; lia).
    rewrite E. pose proof (ulp_pos (Qabs (0 # d))). cbn [Qabs Z.abs Qnum Qden] in *.
    change (Qabs 0) with 0. lra.
  - change (Qabs (Zpos p # d)) with (Zpos p # d). apply round_pos_error.
  - change (Qabs (Zneg p # d)) with (Zpos p # d).
    change (- (Zneg p # d)) with (Zpos p # d).
    assert (E : - Double.round_pos (Zpos p # d) - (Zneg p # d)
                == - (Double.round_pos (Zpos p # d) - (Zpos p # d))).
    { change (Zneg p # d) with (- (Zpos p # d)). ring. }
    rewrite E, Qabs_opp. apply round_pos_error.
Qed.

Lemma pow2_split (a b : Z) :
  (0 <= a)%Z -> (0 <= b)%Z ->
  2 ^ (a - b) == inject_Z (2 ^ a) / inject_Z (2 ^ b).
Proof.
  intros Ha Hb. rewrite Qpower_minus by lra.
  now rewrite !Zpower_Qpower by assumption.
Qed.

(** [exponent q] is the binary exponent of a positive rational. *)
Lemma exponent_spec (q : Q) :
  0 < q -> 2 ^ Double.exponent q <= q /\ q < 2 ^ (Double.exponent q + 1).
Proof.
  destruct q as [[|p|p] d]; intros Hq;
    try (exfalso; revert Hq; unfold Qlt; cbn; lia).
  unfold Double.exponent. cbn [Qnum Qden].
  pose proof (Z.log2_nonneg (Zpos p)) as Ha.
  pose proof (Z.log2_nonneg (Zpos d)) as Hb.
  destruct (Z.log2_spec (Zpos p)) as [Ha1 Ha2]; [lia|].
  destruct (Z.log2_spec (Zpos d)) as [Hb1 Hb2]; [lia|].
  rewrite <- Z.add_1_r in Ha2, Hb2.
  set (a := Z.log2 (Zpos p)) in *. set (b := Z.log2 (Zpos d)) in *.
  assert (Hup : Zpos p # d < 2 ^ (a - b + 1)).
  { replace (a - b + 1)%Z with ((a + 1) - b)%Z by lia.
    rewrite pow2_split by lia. apply Qlt_shift_div_l.
    - change 0 with (inject_Z 0). rewrite <- Zlt_Qlt.
      apply Z.pow_pos_nonneg; lia.
    - unfold Qlt, Qmult, inject_Z. cbn [Qnum Qden]. rewrite Pos.mul_1_r. nia. }
  assert (Hlow : 2 ^ (a - b - 1) < Zpos p # d).
  { replace (a - b - 1)%Z with (a - (b + 1))%Z by lia.
    rewrite pow2_split by lia. apply Qlt_shift_div_r.
    - change 0 with (inject_Z 0). rewrite <- Zlt_Qlt.
      apply Z.pow_pos_nonneg; lia.
    - unfold Qlt, Qmult, inject_Z. cbn [Qnum Qden]. rewrite Pos.mul_1_r. nia. }
  destruct (Qle_bool (2 ^ (a - b)) (Zpos p # d)) eqn:E.
  - apply Qle_bool_iff in E. split; assumption.
  - split; [now apply Qlt_le_weak|].
    replace (a - b - 1 + 1)%Z with (a - b)%Z by lia.
    apply Qnot_le_lt. intros H. apply Qle_bool_iff in H. congruence.
Qed.

(** In the normal range rounding moves a rational by at most 2^-53 of
    its value. *)
Lemma round_relative_error (q : Q) :
  2 ^ (-1022) <= q -> Qabs (Double.round q - q) <= q * 2 ^ (-53).
Proof.
  intros Hq.
  assert (Hpos : 0 < q).
  { apply Qlt_le_trans with (2 ^ (-1022)); [|exact Hq].
    apply Qpower_0_lt. reflexivity. }
  assert (Eabs : Qabs q == q) by (apply Qabs_pos; lra).
  destruct (exponent_spec q Hpos) as [Hlo Hhi].
  assert (He : (-1022 <= Double.exponent q)%Z).
  { assert (H : 2 ^ (-1022) < 2 ^ (Double.exponent q + 1))
      by (eapply Qle_lt_trans; eassumption).
    apply Qpower_lt_compat_l_inv in H; [lia|reflexivity]. }
  eapply Qle_trans; [apply round_error|].
  assert (Eulp : Double.ulp (Qabs q) == 2 ^ Double.exponent q * 2 ^ (-52)).
  { unfold Double.ulp.
    assert (Ee : Double.exponent (Qabs q) = Double.exponent q).
    { destruct q as [[|p|p] d]; try reflexivity.
      exfalso. revert Hpos. unfold Qlt. cbn. lia. }
    rewrite Ee, Z.max_l by lia.
    unfold Z.sub. rewrite Qpower_plus by lra. reflexivity. }
  rewrite Eulp.
  assert (E53 : (2:Q) ^ (-53) == (1 # 2) * 2 ^ (-52)) by reflexivity.
  rewrite E53.
  assert (H52 : 0 < (2:Q) ^ (-52)) by (apply Qpower_0_lt; reflexivity).
  set (u := (2:Q) ^ (-52)) in *. set (x := 2 ^ Double.exponent q) in *.
  assert (H : x * u <= q * u) by (apply Qmult_le_compat_r; lra).
  lra.
Qed.

(** One call of [playAudio] either schedules nothing and leaves the
    cursor alone, or schedules one buffer at the maximum of the clock and
    the cursor and moves the cursor to the rounded end of that buffer. *)
Lemma playAudio_step (st : Service) (now : Q) (base64 : string) :
  let '(st', ev, err) := Double.playAudio st now base64 in
  (ev = [] /\ st' = st) \/
  (exists b, ev = [SourceStarted (Qmax now (nextStartTime st)) b] /\
             nextStartTime st'
             = Double.add (Qmax now (nextStartTime st)) (Double.duration b) /\
             err = None).
Proof.
  unfold Double.playAudio.
  destruct (outputContext st); [|now left].
  destruct (Base64.atob base64); [|now left].
  destruct (Codec.decodeAudioData _) as [e|b]; [now left|].
  right. exists b. cbn. auto.
Qed.

Lemma playAll_follows_cursor (chunks : list (Q * string)) :
  forall st,
  Double.follows_cursor (Double.scheduled (snd (Double.playAll st chunks))) /\
  (forall t d rest,
     Double.scheduled (snd (Double.playAll st chunks)) = (t, d) :: rest ->
     nextStartTime st <= t).
Proof.
  induction chunks as [|[now base64] chunks IH]; intros st.
  - cbn. split; [exact I|discriminate].
  - cbn [Double.playAll].
    pose proof (playAudio_step st now base64) as Hstep.
    destruct (Double.playAudio st now base64) as [[st1 ev] err].
    specialize (IH st1). destruct (Double.playAll st1 chunks) as [st2 log].
    cbn [snd] in *. destruct IH as [IHs IHh].
    destruct Hstep as [[-> ->]|(b & -> & Hnext & _)].
    + cbn [app]. split; assumption.
    + cbn [app Double.scheduled]. split.
      * cbn [Double.follows_cursor]. split; [|exact IHs].
        destruct (Double.scheduled log) as [|[t' d'] rest] eqn:E; [exact I|].
        rewrite <- Hnext. exact (IHh t' d' rest eq_refl).
      * intros t d rest [= <- _ _]. apply Qmax_ge_r.
Qed.

(** C2, as the code has it.  A buffer that reaches the scheduler starts
    at the maximum of the device clock and the cursor, and the cursor
    moves to the binary64 sum of that start and the duration of the
    buffer; a chunk that cannot be decoded schedules nothing and leaves
    the cursor where it was; the packed bytes of every non-empty list of
    16-bit integers are scheduled.  So, for every sequence of chunks in
    arrival order, each scheduled entry starts no earlier than the rounded
    sum of the start and the duration of the entry before it; that
    rounded sum is within half a unit in the last place of the exact one,
    which in the normal range is within 2^-53 of its value. *)
Theorem playback_entries_follow_cursor (st : Service) (chunks : list (Q * string)) :
  Double.follows_cursor (Double.scheduled (snd (Double.playAll st chunks))) /\
  (forall now base64,
     match Double.playAudio st now base64 with
     | (st', [SourceStarted startTime b], None) =>
         startTime = Qmax now (nextStartTime st) /\
         now <= startTime /\ nextStartTime st <= startTime /\
         nextStartTime st' = Double.add startTime (Double.duration b)
     | (st', [], _) => st' = st
     | _ => False
     end) /\
  (forall now zs,
     zs <> [] -> Forall is_int16 zs -> outputContext st <> None ->
     let b := mkAudioBuffer (map (fun z => Fin (z # 32768)) zs) 24000 in
     let startTime := Qmax now (nextStartTime st) in
     Double.playAudio st now
       (Base64.btoa (Base64.fromCharCodes (flat_map int16Bytes zs)))
     = (set_nextStartTime st (Double.add startTime (Double.duration b)),
        [SourceStarted startTime b], None)) /\
  (forall t d,
     Qabs (Double.add t d - (t + d)) <= (1 # 2) * Double.ulp (Qabs (t + d))) /\
  (forall t d,
     2 ^ (-1022) <= t + d ->
     Qabs (Double.add t d - (t + d)) <= (t + d) * 2 ^ (-53)).
Proof.
  split; [exact (proj1 (playAll_follows_cursor chunks st))|].
  split; [|split; [|split; [|intros t d; apply round_relative_error]]].
  - intros now base64.
    pose proof (playAudio_step st now base64) as Hstep.
    destruct (Double.playAudio st now base64) as [[st' ev] err].
    destruct Hstep as [[-> ->]|(b & -> & Hnext & ->)]; [reflexivity|].
    repeat split; auto using Qmax_ge_l, Qmax_ge_r.
  - intros now zs Hzs Hint Hctx b startTime. subst b startTime.
    unfold Double.playAudio. destruct (outputContext st); [|congruence].
    rewrite atob_btoa, charCodes_fromCharCodes.
    + now rewrite (decodeAudioData_int16Bytes zs Hzs Hint).
    + clear. induction zs as [|z zs IH]; [constructor|].
      cbn [flat_map]. apply Forall_app. split; [apply int16Bytes_bytes|exact IH].
  - intros t d. apply round_error.
Qed.

Lemma playback_entries_follow_cursor_witness :
  [12000; -32768]%Z <> [] /\ Forall is_int16 [12000; -32768]%Z /\
  outputContext new_service <> None /\
  Double.playAudio new_service (1 # 2) "4C4AgA=="
  = (set_nextStartTime new_service
       (4504350227308391 # 9007199254740992),
     [SourceStarted (1 # 2)
        (mkAudioBuffer [Fin (12000 # 32768); Fin (-32768 # 32768)] 24000)],
     None).
Proof.
  assert (H1 : [12000; -32768]%Z <> []) by (intros E; discriminate E).
  assert (H2 : Forall is_int16 [12000; -32768]%Z).
  { repeat (apply Forall_cons; [unfold is_int16; lia|]). apply Forall_nil. }
  assert (H3 : outputContext new_service <> None) by (intros E; discriminate E).
  split; [exact H1|]. split; [exact H2|]. split; [exact H3|].
  exact (proj1 (proj2 (proj2 (playback_entries_follow_cursor new_service [])))
           (1 # 2) [12000; -32768]%Z H1 H2 H3).
Defined.

(** C2 as stated fails on three chunks of 1, 3 and 1 samples that arrive
    while the clock reads 0: the second entry starts at 1/24000 (as a
    binary64 number) and lasts 3/24000 (as a binary64 number); the sum of
    the two is not a binary64 number and is rounded down, and the third
    entry starts at the rounded sum, before the second one ends. *)
Lemma third_entry_starts_before_second_ends :
  let entries :=
    Double.scheduled (snd (Double.playAll new_service
      [(0, "AAA="%string); (0, "AAAAAAAA"%string); (0, "AAA="%string)])) in
  let d1 := 6148914691236517 # 147573952589676412928 in
  let d3 := 1152921504606847 # 9223372036854775808 in
  let c := 6148914691236517 # 36893488147419103232 in
  entries = [(0, d1); (d1, d3); (c, d1)] /\
  c < d1 + d3 /\
  ~ Double.sequential entries.
Proof.
  cbv zeta.
  assert (E : Double.scheduled (snd (Double.playAll new_service
      [(0, "AAA="%string); (0, "AAAAAAAA"%string); (0, "AAA="%string)]))
    = [(0, 6148914691236517 # 147573952589676412928);
       (6148914691236517 # 147573952589676412928,
        1152921504606847 # 9223372036854775808);
       (6148914691236517 # 36893488147419103232,
        6148914691236517 # 147573952589676412928)])
    by (vm_compute; reflexivity).
  rewrite E. split; [reflexivity|]. split; [reflexivity|].
  cbn [Double.sequential]. intros (_ & H & _).
  apply (Qle_not_lt _ _ H). reflexivity.
Qed.

End SchedulerFacts.

(** ** The model on concrete inputs *)

Section Checks.
Local Open Scope string_scope.

Example forward_200 :
  motorCommand (mkArgs (Some "forward") (Some (Fin 200)))
  = mkMotorCommand "move" (Fin 200) (Fin 0).
Proof. reflexivity. Qed.

Example left_150 :
  motorCommand (mkArgs (Some "left") (Some (Fin 150)))
  = mkMotorCommand "move" (Fin 0) (Fin (-150)).
Proof. reflexivity. Qed.

Example stop_any_speed :
  motorCommand (mkArgs (Some "stop") (Some (Fin 255)))
  = mkMotorCommand "move" (Fin 0) (Fin 0).
Proof. reflexivity. Qed.

Example backward_speed_zero :
  motorCommand (mkArgs (Some "backward") (Some (Fin 0)))
  = mkMotorCommand "move" (Fin (-200)) (Fin 0).
Proof. reflexivity. Qed.

Example right_speed_NaN :
  motorCommand (mkArgs (Some "right") (Some NaN))
  = mkMotorCommand "move" (Fin 0) (Fin 200).
Proof. reflexivity. Qed.

Example unknown_direction :
  motorCommand (mkArgs (Some "up") (Some (Fin 90)))
  = mkMotorCommand "move" (Fin 0) (Fin 0).
Proof. reflexivity. Qed.

Example pcm_of_three_samples :
  Codec.pcmBytes [Fin 1; Fin (-1); Fin (1 # 2)] = [255; 127; 0; 128; 255; 63]%Z /\
  Codec.createPcmBlob [Fin 1; Fin (-1); Fin (1 # 2)]
  = Codec.mkBlob "audio/pcm;rate=16000" "/38AgP8/".
Proof. split; reflexivity. Qed.

Example pcm_out_of_range :
  map Codec.encodeSample [Fin 5; Fin (-3); Inf false; Inf true; NaN]
  = [32767; -32768; 32767; -32768; 0]%Z.
Proof. reflexivity. Qed.

Example atob_forgiving :
  Base64.atob "TWFu" = Some "Man" /\ Base64.atob "TQ==" = Some "M" /\
  Base64.atob "TQ" = Some "M" /\ Base64.atob " T W F u " = Some "Man" /\
  Base64.atob "TQ=" = None /\ Base64.atob "T" = None /\
  Base64.atob "TQ=a" = None.
Proof. repeat split. Qed.

(** [Double.round] on some rationals: 1/10, -1/3, two ties, and the
    subnormal range. *)
Example round_to_binary64 :
  Double.round (1 # 10) = (3602879701896397 # 36028797018963968)%Q /\
  Double.round (-1 # 3) = (-6004799503160661 # 18014398509481984)%Q /\
  Double.round (9007199254740993 # 9007199254740992) = 1%Q /\
  Double.round (9007199254740995 # 9007199254740992)
  = (2251799813685249 # 2251799813685248)%Q /\
  Double.round (2 ^ (-1075)) = 0%Q /\
  Double.round (3 * 2 ^ (-1075)) = Qred (2 ^ (-1073))%Q /\
  Double.round (2 ^ (-1080)) = 0%Q.
Proof. vm_compute. repeat split. Qed.

(** Two chunks arriving at time 0 play back to back; an odd number of
    bytes schedules nothing; after an underrun the next chunk starts at
    the clock. *)
Example schedule_of_four_chunks :
  Double.scheduled (snd (Double.playAll new_service
    [(0, "AAAAAA=="); (0, "AAAAAAAA"); (1, "AAAA"); (5, "AAA")]%Q))
  = [(0, 6148914691236517 # 73786976294838206464);
     (6148914691236517 # 73786976294838206464,
      1152921504606847 # 9223372036854775808);
     (5, 6148914691236517 # 147573952589676412928)]%Q.
Proof. vm_compute. reflexivity. Qed.

Example message_with_calls_audio_and_text :
  snd (fst (run Examples.sink_ok 3 Examples.connected 0
    (onmessage (mkMessage
       (Some (mkToolCall [Examples.forward_a; Examples.stop_b]))
       (Some (mkServerContent (Some (mkModelTurn (Some
          [mkPart (Some (mkInlineData (Some "AAAAAA=="))) (Some "Affirmative");
           mkPart None (Some "later")])))))))))
  = [ToolCallInvoked (mkMotorCommand "move" (Fin 200) (Fin 0));
     ToolCallInvoked (mkMotorCommand "move" (Fin 0) (Fin 0));
     ToolResponse (mkFunctionResponse "a" "moveRobot" "ok");
     ToolResponse (mkFunctionResponse "b" "moveRobot" "ok");
     SourceStarted 3
       (Codec.mkAudioBuffer [Fin (0 # 32768); Fin (0 # 32768)] 24000);
     TranscriptForwarded "Affirmative" false].
Proof. reflexivity. Qed.

(** Without audio the transcript is forwarded before the last response is
    sent. *)
Example message_with_call_and_text :
  snd (fst (run Examples.sink_ok 3 Examples.connected 0
    (onmessage (mkMessage
       (Some (mkToolCall [Examples.forward_a]))
       (Some (mkServerContent (Some (mkModelTurn (Some
          [mkPart None (Some "Affirmative")])))))))))
  = [ToolCallInvoked (mkMotorCommand "move" (Fin 200) (Fin 0));
     TranscriptForwarded "Affirmative" false;
     ToolResponse (mkFunctionResponse "a" "moveRobot" "ok")].
Proof. reflexivity. Qed.

(** The response to the call before a rejected one is sent after the
    rejected call was dispatched. *)
Example rejected_second_call :
  run (fun i _ => match i with O => Fulfil "ok" | _ => Reject Examples.robot_offline end)
    3 Examples.connected 0 (onmessage Examples.batch_ab)
  = (Examples.connected,
     [ToolCallInvoked (mkMotorCommand "move" (Fin 200) (Fin 0));
      ToolCallInvoked (mkMotorCommand "move" (Fin 0) (Fin 0));
      ToolResponse (mkFunctionResponse "a" "moveRobot" "ok")],
     Rejected (SinkRejection Examples.robot_offline)).
Proof. reflexivity. Qed.

Example disconnect_before_connect_twice :
  disconnect_twice true new_service
  = (new_service, [CloseCallback; CloseCallback], Completed).
Proof. reflexivity. Qed.

Example scene_headers :
  Scene.cleanBase64 "data:image/png;base64,iVBORw0K" = "iVBORw0K" /\
  Scene.cleanBase64 "data:image/jpeg;base64,/9j/4AAQ" = "/9j/4AAQ" /\
  Scene.cleanBase64 "/9j/4AAQ" = "/9j/4AAQ" /\
  Scene.cleanBase64 "data:image/gif;base64,R0lGOD" = "data:image/gif;base64,R0lGOD".
Proof. repeat split. Qed.

End Checks.

(** * Further properties of the code *)

(** ** The sample conversion of [createPcmBlob] *)

Section EncoderFacts.
Import Codec.
Local Open Scope Q_scope.

Lemma truncate_mono (p q : Q) :
  p <= q -> (CodecSpec.truncate p <= CodecSpec.truncate q)%Z.
Proof.
  intros Hpq. unfold CodecSpec.truncate.
  destruct (Qle_bool 0 p) eqn:Ep, (Qle_bool 0 q) eqn:Eq.
  - now apply Qfloor_resp_le.
  - apply Qle_bool_iff in Ep.
    assert (Hq : 0 <= q) by lra. apply Qle_bool_iff in Hq. congruence.
  - assert (Hp : p <= 0).
    { destruct (Qlt_le_dec 0 p) as [H|H]; [|exact H].
      apply Qlt_le_weak, Qle_bool_iff in H. congruence. }
    apply Qle_bool_iff in Eq.
    apply Z.le_trans with 0%Z.
    + change 0%Z with (Qceiling 0). now apply Qceiling_resp_le.
    + change 0%Z with (Qfloor 0). now apply Qfloor_resp_le.
  - now apply Qceiling_resp_le.
Qed.

(** X1. The conversion is monotone: a larger sample never gets a smaller
    integer. *)
Theorem encodeSample_monotone (p q : Q) :
  p <= q -> (encodeSample (Fin p) <= encodeSample (Fin q))%Z.
Proof.
  intros Hpq.
  pose proof (encodeSample_int16 (Fin p)) as Bp.
  pose proof (encodeSample_int16 (Fin q)) as Bq.
  unfold is_int16 in Bp, Bq.
  destruct (encodeSample_cases p) as [(P & Ep)|[(P & Ep)|[(P1 & P2 & Ep)|(P1 & P2 & Ep)]]];
  destruct (encodeSample_cases q) as [(H & Eq)|[(H & Eq)|[(H1 & H2 & Eq)|(H1 & H2 & Eq)]]];
    try (exfalso; lra); try lia.
  - rewrite Ep, Eq. apply truncate_mono. lra.
  - destruct (truncate_scaled_neg p P1 P2) as (_ & _ & _).
    assert (Hn : p * 32768 <= 0) by lra.
    assert (Hz : 0 <= q * 32767) by lra.
    pose proof (proj1 (truncate_nonpos _ Hn)).
    pose proof (proj1 (truncate_nonneg _ Hz)).
    rewrite Ep, Eq. lia.
  - rewrite Ep, Eq. apply truncate_mono. lra.
Qed.

Lemma encodeSample_monotone_witness :
  (1 # 3) <= (1 # 2) /\
  (encodeSample (Fin (1 # 3)) <= encodeSample (Fin (1 # 2)))%Z.
Proof.
  assert (H : (1 # 3) <= (1 # 2)) by (intros E; discriminate E).
  split; [exact H | exact (encodeSample_monotone _ _ H)].
Defined.

End EncoderFacts.

Section EncoderRange.
Import Codec.
Local Open Scope Q_scope.

(** X2. Saturation and sign.  The conversion gives 32767 exactly for
    the samples at or above 1 and -32768 exactly for those at or below -1;
    a sample that is not negative gives an integer that is not negative,
    one that is not positive an integer that is not positive; the
    infinities saturate like every other value out of range. *)
Theorem encodeSample_saturates (q : Q) :
  (encodeSample (Fin q) = 32767%Z <-> 1 <= q) /\
  (encodeSample (Fin q) = (-32768)%Z <-> q <= -1) /\
  (0 <= q -> (0 <= encodeSample (Fin q))%Z) /\
  (q <= 0 -> (encodeSample (Fin q) <= 0)%Z) /\
  encodeSample (Inf false) = encodeSample (Fin 1) /\
  encodeSample (Inf true) = encodeSample (Fin (-1)).
Proof.
  destruct (encodeSample_cases q) as [(H & E)|[(H & E)|[(H1 & H2 & E)|(H1 & H2 & E)]]];
    rewrite E.
  - repeat split; intros; try reflexivity; try lra; try lia; try (exfalso; lra); try (exfalso; lia).
  - repeat split; intros; try reflexivity; try lra; try lia; try (exfalso; lra); try (exfalso; lia).
  - destruct (truncate_scaled_neg q H1 H2) as (Hr & Hle & Hlt).
    unfold is_int16 in Hr.
    assert (Hn : q * 32768 <= 0) by lra.
    pose proof (proj1 (truncate_nonpos _ Hn)) as Hk.
    assert (Hs : (CodecSpec.truncate (q * 32768) <> -32768)%Z).
    { intros Ek. rewrite Ek in Hle. change (inject_Z (-32768)) with (-32768) in Hle. lra. }
    repeat split; intros; try reflexivity; try lra; try lia; try (exfalso; lra); try (exfalso; lia).
  - destruct (truncate_scaled_nonneg q H1 (Qlt_le_weak _ _ H2)) as (Hr & Hle & Hlt).
    unfold is_int16 in Hr.
    assert (Hs : (CodecSpec.truncate (q * 32767) <> 32767)%Z).
    { intros Ek. rewrite Ek in Hle. change (inject_Z 32767) with 32767 in Hle. lra. }
    assert (Hz : 0 <= q * 32767) by lra.
    pose proof (proj1 (truncate_nonneg _ Hz)) as Hk.
    repeat split; intros; try reflexivity; try lra; try lia; try (exfalso; lra); try (exfalso; lia).
    rewrite Zle_Qle. change (inject_Z 0) with 0. lra.
Qed.

Lemma encodeSample_saturates_witness :
  1 <= 3 # 2 /\ encodeSample (Fin (3 # 2)) = 32767%Z.
Proof.
  assert (H : 1 <= 3 # 2) by (intros E; discriminate E).
  split; [exact H|].
  exact (proj2 (proj1 (encodeSample_saturates (3 # 2))) H).
Defined.

(** X3. The samples that are stored as 0 are exactly those strictly
    between -1/32768 and 1/32767. *)
Theorem encodeSample_zero (q : Q) :
  encodeSample (Fin q) = 0%Z <-> - (1 # 32768) < q /\ q < 1 # 32767.
Proof.
  destruct (encodeSample_cases q) as [(H & E)|[(H & E)|[(H1 & H2 & E)|(H1 & H2 & E)]]];
    rewrite E.
  - split; [discriminate|intros [_ Hq]; lra].
  - split; [discriminate|intros [Hq _]; lra].
  - destruct (truncate_scaled_neg q H1 H2) as (_ & Hle & Hlt).
    assert (Hn : q * 32768 <= 0) by lra.
    pose proof (proj1 (truncate_nonpos _ Hn)) as Hk.
    split.
    + intros Ek. rewrite Ek in Hlt. change (inject_Z 0) with 0 in Hlt. lra.
    + intros [Hq _].
      assert (Hgt : (-1 < CodecSpec.truncate (q * 32768))%Z).
      { rewrite Zlt_Qlt. change (inject_Z (-1)) with (-1). lra. }
      lia.
  - destruct (truncate_scaled_nonneg q H1 (Qlt_le_weak _ _ H2)) as (_ & Hle & Hlt).
    assert (Hz : 0 <= q * 32767) by lra.
    pose proof (proj1 (truncate_nonneg _ Hz)) as Hk.
    split.
    + intros Ek. rewrite Ek in Hlt. change (inject_Z 0) with 0 in Hlt. lra.
    + intros [_ Hq].
      assert (Hlt1 : (CodecSpec.truncate (q * 32767) < 1)%Z).
      { rewrite Zlt_Qlt. change (inject_Z 1) with 1. lra. }
      lia.
Qed.

Lemma truncate_inject_Z (z : Z) : CodecSpec.truncate (inject_Z z) = z.
Proof.
  unfold CodecSpec.truncate. destruct (Qle_bool 0 (inject_Z z)).
  - apply Qfloor_Z.
  - apply Qceiling_Z.
Qed.

(** X4. Decoding a 16-bit integer and converting the result again does
    not give the integer back when it is positive: it comes out one lower.
    Zero and the negative integers are kept. *)
Theorem reencode_decoded (z : Z) :
  is_int16 z ->
  encodeSample (Fin (z # 32768)) = if (0 <? z)%Z then (z - 1)%Z else z.
Proof.
  unfold is_int16. intros [Hlo Hhi].
  assert (Qlo : -32768 <= inject_Z z)
    by (change (-32768) with (inject_Z (-32768)); now rewrite <- Zle_Qle).
  assert (Qhi : inject_Z z <= 32767)
    by (change 32767 with (inject_Z 32767); now rewrite <- Zle_Qle).
  pose proof (Qmake_32768 z) as Ez.
  destruct (encodeSample_cases (z # 32768))
    as [(H & E)|[(H & E)|[(H1 & H2 & E)|(H1 & H2 & E)]]]; rewrite E.
  - exfalso. rewrite Ez in H. lra.
  - rewrite Ez in H. assert (Hq : inject_Z z <= inject_Z (-32768))
      by (change (inject_Z (-32768)) with (-32768); lra).
    rewrite <- Zle_Qle in Hq.
    destruct (Z.ltb_spec 0 z); lia.
  - rewrite Ez in H2.
    assert (Hneg : inject_Z z < inject_Z 0) by (change (inject_Z 0) with 0; lra).
    rewrite <- Zlt_Qlt in Hneg.
    destruct (Z.ltb_spec 0 z); [lia|].
    rewrite <- (truncate_inject_Z z) at 2. apply truncate_comp.
    rewrite Ez. field.
  - destruct (truncate_scaled_nonneg _ H1 (Qlt_le_weak _ _ H2)) as (_ & Hle & Hlt).
    assert (Hz : 0 <= (z # 32768) * 32767) by (rewrite Ez in *; lra).
    pose proof (proj1 (truncate_nonneg _ Hz)) as Hk.
    set (k := CodecSpec.truncate ((z # 32768) * 32767)) in *.
    rewrite Ez in Hle, Hlt, H1.
    destruct (Z.ltb_spec 0 z) as [Hpos|Hnpos].
    + assert (Qpos : inject_Z 0 < inject_Z z) by now rewrite <- Zlt_Qlt.
      change (inject_Z 0) with 0 in Qpos.
      assert (K1 : (k < z)%Z).
      { rewrite Zlt_Qlt. lra. }
      assert (K2 : (z < k + 2)%Z).
      { rewrite Zlt_Qlt, inject_Z_plus. change (inject_Z 2) with 2. lra. }
      lia.
    + assert (Hz0 : z = 0%Z).
      { assert (Q0 : inject_Z 0 <= inject_Z z) by (change (inject_Z 0) with 0; lra).
        rewrite <- Zle_Qle in Q0. lia. }
      subst z. reflexivity.
Qed.

Lemma reencode_decoded_witness :
  is_int16 12000 /\ encodeSample (Fin (12000 # 32768)) = 11999%Z.
Proof.
  assert (H : is_int16 12000) by (unfold is_int16; lia).
  split; [exact H | exact (reencode_decoded 12000 H)].
Defined.

End EncoderRange.

(** ** [decodeAudioData] and the capture callback *)

Section DecoderFacts.
Import Codec.




Lemma length_string_of_list (l : list ascii) :
  String.length (string_of_list_ascii l) = List.length l.
Proof. induction l as [|c l IH]; [reflexivity|]. cbn. now rewrite IH. Qed.

Lemma length_encode (bs : list Z) :
  List.length (Base64.encode bs) = (4 * ((List.length bs + 2) / 3))%nat.
Proof.
  induction bs as [|a|a b|a b c l IH] using list_ind3; try reflexivity.
  cbn [Base64.encode List.length]. rewrite IH.
  replace (S (S (S (List.length l))) + 2)%nat with ((List.length l + 2) + 1 * 3)%nat by lia.
  rewrite Nat.div_add by lia. lia.
Qed.

Lemma length_pcmBytes (data : list number) :
  List.length (pcmBytes data) = (2 * List.length data)%nat.
Proof.
  unfold pcmBytes. induction data as [|x data IH]; [reflexivity|].
  cbn [map flat_map int16Bytes app List.length]. rewrite IH. lia.
Qed.

(** X6. The capture callback sends nothing when there is no session
    promise; otherwise it sends exactly one realtime input per frame, of
    type [audio/pcm;rate=16000], whose text has 4 * ceil(2n/3) characters
    for a frame of n samples and decodes to 2n bytes. *)
Theorem onaudioprocess_payload (st : Service) (inputData : list number) :
  let n := List.length inputData in
  (sessionPromise st = false -> Capture.onaudioprocess st inputData = []) /\
  (sessionPromise st = true ->
   exists media,
     Capture.onaudioprocess st inputData = [Capture.RealtimeInput media] /\
     mimeType media = "audio/pcm;rate=16000"%string /\
     String.length (Codec.data media) = (4 * ((2 * n + 2) / 3))%nat /\
     exists binary,
       Base64.atob (Codec.data media) = Some binary /\
       String.length binary = (2 * n)%nat /\
       int16View (Base64.charCodes binary) = Some (map encodeSample inputData)).
Proof.
  intros n. unfold Capture.onaudioprocess. split; intros ->; [reflexivity|].
  exists (createPcmBlob inputData). split; [reflexivity|]. split; [reflexivity|].
  unfold createPcmBlob. cbn [Codec.data]. split.
  - unfold Base64.btoa. rewrite length_string_of_list, length_encode.
    rewrite charCodes_fromCharCodes by apply pcmBytes_bytes.
    now rewrite length_pcmBytes.
  - exists (Base64.fromCharCodes (pcmBytes inputData)).
    split; [apply atob_btoa|]. split.
    + unfold Base64.fromCharCodes.
      now rewrite length_string_of_list, length_map, length_pcmBytes.
    + rewrite charCodes_fromCharCodes by apply pcmBytes_bytes.
      apply int16View_pcmBytes.
Qed.

Lemma onaudioprocess_payload_witness :
  sessionPromise Examples.connected = true /\
  exists media,
    Capture.onaudioprocess Examples.connected [Fin 1; Fin (-1); Fin (1 # 2)]
    = [Capture.RealtimeInput media] /\
    String.length (Codec.data media) = 8%nat.
Proof.
  split; [reflexivity|].
  destruct (proj2 (onaudioprocess_payload Examples.connected
                     [Fin 1; Fin (-1); Fin (1 # 2)]) eq_refl)
    as (media & Hsend & _ & Hlen & _).
  exists media. split; [exact Hsend | exact Hlen].
Defined.

End DecoderFacts.

(** ** The playback cursor *)

Section CursorFacts.
Import Notions.
Local Open Scope Q_scope.

Lemma duration_nonneg (bytes : list Z) (b : Codec.AudioBuffer) :
  Codec.decodeAudioData bytes = inr b -> 0 <= Codec.duration b.
Proof.
  unfold Codec.decodeAudioData.
  destruct (Codec.int16View bytes) as [[|z zs]|]; try discriminate.
  intros [= <-]. unfold Codec.duration. cbn [Codec.channelData Codec.sampleRate].
  apply Qmult_le_0_compat.
  - change 0 with (inject_Z 0). rewrite <- Zle_Qle. lia.
  - intros E. discriminate E.
Qed.

(** A call of [playAudio] either does nothing to the service and the
    device, or starts a buffer of non-negative duration. *)
Lemma playAudio_cases (st : Service) (now : Q) (base64 : string) :
  (fst (playAudio st now base64) = (st, [])) \/
  (exists b, 0 <= Codec.duration b /\
     playAudio st now base64
     = (set_nextStartTime st (Qmax now (nextStartTime st) + Codec.duration b),
        [SourceStarted (Qmax now (nextStartTime st)) b], None)).
Proof.
  unfold playAudio.
  destruct (outputContext st); [|now left].
  destruct (Base64.atob base64) as [binaryString|]; [|now left].
  destruct (Codec.decodeAudioData _) as [e|b] eqn:E; [now left|].
  right. exists b. split; [exact (duration_nonneg _ _ E)|reflexivity].
Qed.

End CursorFacts.

(** ** The message handler under an arbitrary sink *)

Section HandlerSafety.
Import Notions.

Variable sink : nat -> MotorCommand -> SinkOutcome.
Variable now : Q.

Lemma transcripts_app (l1 l2 : list Event) :
  transcripts (l1 ++ l2) = transcripts l1 ++ transcripts l2.
Proof.
  induction l1 as [|e l1 IH]; [reflexivity|].
  destruct e; cbn; now rewrite ?IH.
Qed.

Lemma run_keeps_fields (t : Task) :
  forall st n q,
  let st' := fst (fst (run_from sink now st n q t)) in
  sessionPromise st' = sessionPromise st /\
  audioContext st' = audioContext st /\
  inputProcessor st' = inputProcessor st /\
  source st' = source st /\
  outputContext st' = outputContext st /\
  stream st' = stream st /\
  (nextStartTime st <= nextStartTime st')%Q.
Proof.
  induction t as [|c k IH|r k IH|base64 k IH|t u k IH]; intros st n q;
    cbn [run_from].
  - cbn. repeat split; apply Qle_refl.
  - destruct (sink n c) as [result| |].
    + specialize (IH result st (S n) []).
      destruct (run_from sink now st (S n) [] (k result)) as [[st' log] r].
      exact IH.
    + cbn. repeat split; apply Qle_refl.
    + cbn. repeat split; apply Qle_refl.
  - apply IH.
  - destruct (playAudio_cases st now base64) as [H|(b & Hd & H)].
    + destruct (playAudio st now base64) as [[st1 ev] [e|]];
        cbn [fst] in H; injection H as -> ->.
      * cbn. repeat split; apply Qle_refl.
      * specialize (IH st n []).
        destruct (run_from sink now st n [] k) as [[st' log] c].
        exact IH.
    + rewrite H. set (st1 := set_nextStartTime st _).
      specialize (IH st1 n []).
      destruct (run_from sink now st1 n [] k) as [[st' log] c].
      cbn [fst] in *. destruct IH as (H1 & H2 & H3 & H4 & H5 & H6 & H7).
      subst st1. cbn [set_nextStartTime sessionPromise audioContext inputProcessor
        source outputContext stream nextStartTime] in *.
      repeat split; try assumption.
      pose proof (Qmax_ge_r now (nextStartTime st)). lra.
  - specialize (IH st n q).
    destruct (run_from sink now st n q k) as [[st' log] c]. exact IH.
Qed.

(** X9. Handling a server message changes nothing of the service but the
    playback cursor, which does not move back: the session promise, the
    capture context, source and processor, the output context and the
    microphone stream are as before, whatever the sink does. *)
Theorem onmessage_keeps_connection (msg : LiveServerMessage) (st : Service)
    (n : nat) :
  let st' := fst (fst (run sink now st n (onmessage msg))) in
  sessionPromise st' = sessionPromise st /\
  audioContext st' = audioContext st /\
  inputProcessor st' = inputProcessor st /\
  source st' = source st /\
  outputContext st' = outputContext st /\
  stream st' = stream st /\
  (nextStartTime st <= nextStartTime st')%Q /\
  (audioDataOf msg = None -> st' = st).
Proof.
  intros st'. subst st'. unfold run.
  destruct (run_keeps_fields (onmessage msg) st n [])
    as (H1 & H2 & H3 & H4 & H5 & H6 & H7).
  repeat split; try assumption.
  intros Hno.
  assert (Hrest : forall m q, fst (fst (run_from sink now st m q
                    (handleAudio msg (handleTranscript msg)))) = st).
  { intros m q. unfold handleAudio, handleTranscript. rewrite Hno.
    destruct (textOf msg) as [t|]; [|reflexivity].
    destruct (truthy_string t); reflexivity. }
  unfold onmessage. destruct (toolCall msg) as [[fcs]|]; [|apply Hrest].
  cbn [functionCalls]. generalize n (@nil Event).
  induction fcs as [|fc fcs IH]; intros m q.
  - apply Hrest.
  - cbn [forFunctionCalls]. destruct (String.eqb (name fc) "moveRobot"); [|apply IH].
    cbn [run_from]. destruct (sink m (motorCommand (args fc))); try reflexivity.
    specialize (IH (S m) ([] ++ (if sessionPromise st
                                 then [ToolResponse
                                         (mkFunctionResponse (id fc) (name fc) result)]
                                 else []))).
    destruct (run_from sink now st (S m) _ (forFunctionCalls fcs _))
      as [[st' log] c].
    exact IH.
Qed.

Lemma serves_a_prefix (st : Service) (rest : Task) (fcs : list FunctionCall) :
  (forall m q, responses (snd (fst (run_from sink now st m q rest))) = responses q /\
               invoked (snd (fst (run_from sink now st m q rest))) = invoked q) ->
  forall n q,
  invoked q = [] ->
  let log := snd (fst (run_from sink now st n q (forFunctionCalls fcs rest))) in
  let cmds := map (fun fc => motorCommand (args fc)) (moves fcs) in
  let i := fulfilled sink n cmds in
  invoked log = firstn (S i) cmds /\
  map id_name (responses log)
  = map id_name (responses q)
    ++ (if sessionPromise st
        then firstn i (map (fun fc => (id fc, name fc)) (moves fcs))
        else []).
Proof.
  intros Hrest. induction fcs as [|fc fcs IH]; intros n q Hq; cbv zeta.
  - cbn [forFunctionCalls moves filter map fulfilled firstn].
    destruct (Hrest n q) as [Hr Hi]. rewrite Hr, Hi, Hq.
    split; [reflexivity|]. destruct (sessionPromise st); now rewrite app_nil_r.
  - cbn [forFunctionCalls moves filter]. fold (moves fcs).
    destruct (String.eqb (name fc) "moveRobot"); [|exact (IH n q Hq)].
    cbn [map fulfilled run_from].
    destruct (sink n (motorCommand (args fc))) as [result| |].
    + set (q' := [] ++ (if sessionPromise st
                        then [ToolResponse (mkFunctionResponse (id fc) (name fc) result)]
                        else [])).
      assert (Hq' : invoked q' = []) by (subst q'; now destruct (sessionPromise st)).
      destruct (IH (S n) q' Hq') as [Hinv Hresp]. cbv zeta in Hinv, Hresp.
      destruct (run_from sink now st (S n) q' (forFunctionCalls fcs rest))
        as [[st' log'] c'].
      cbn [fst snd] in *. cbn [invoked firstn]. rewrite invoked_app, Hq, Hinv.
      split; [reflexivity|].
      cbn [responses]. rewrite responses_app, map_app, Hresp.
      subst q'. destruct (sessionPromise st); reflexivity.
    + cbn [fst snd invoked responses firstn]. rewrite Hq.
      split; [reflexivity|]. destruct (sessionPromise st); now rewrite app_nil_r.
    + cbn [fst snd invoked responses firstn]. rewrite Hq.
      split; [reflexivity|]. destruct (sessionPromise st); now rewrite app_nil_r.
Qed.

(** X10. Whatever the sink does, the handler dispatches exactly the
    commands of the leading [moveRobot] calls of the batch that the sink
    fulfils and of the first one it does not fulfil, in order, and sends
    exactly the responses to the fulfilled ones, in order, each with the
    id and name of its call; without a session promise the same commands
    are dispatched and no response is sent. *)
Theorem handler_serves_a_prefix (st : Service) (n : nat)
    (fcs : list FunctionCall) (sc : option ServerContent) :
  let log := snd (fst (run sink now st n
               (onmessage (mkMessage (Some (mkToolCall fcs)) sc)))) in
  let cmds := map (fun fc => motorCommand (args fc)) (moves fcs) in
  let i := fulfilled sink n cmds in
  invoked log = firstn (S i) cmds /\
  map id_name (responses log)
  = (if sessionPromise st
     then firstn i (map (fun fc => (id fc, name fc)) (moves fcs))
     else []).
Proof.
  unfold run. rewrite onmessage_split.
  apply (serves_a_prefix st (onmessage (mkMessage None sc)) fcs); [|reflexivity].
  intros m q. destruct (run_onmessage_counter sink now st m q sc) as (_ & Hr & Hi).
  split; assumption.
Qed.

End HandlerSafety.

Section MessageEvents.
Import Notions.

Variable sink : nat -> MotorCommand -> SinkOutcome.
Variable now : Q.

Lemma truthy_string_nonempty (s : string) :
  truthy_string s = true -> s <> ""%string.
Proof. destruct s; [discriminate|intros _ E; discriminate E]. Qed.

Lemma after_loop_events (msg : LiveServerMessage) (st : Service) (m : nat)
    (q : list Event) :
  scheduled q = [] -> transcripts q = [] ->
  let log := snd (fst (run_from sink now st m q
               (handleAudio msg (handleTranscript msg)))) in
  (List.length (scheduled log) <= 1)%nat /\
  (List.length (transcripts log) <= 1)%nat /\
  (forall t u, In (t, u) (transcripts log) ->
     u = false /\ textOf msg = Some t /\ t <> ""%string) /\
  (scheduled log <> [] ->
   exists a, audioDataOf msg = Some a /\ a <> ""%string /\
             Base64.atob a <> None).
Proof.
  intros Hqs Hqt.
  assert (Htr : forall st' k q',
            scheduled q' = [] -> transcripts q' = [] ->
            let log := snd (fst (run_from sink now st' k q' (handleTranscript msg))) in
            scheduled log = [] /\
            (List.length (transcripts log) <= 1)%nat /\
            (forall t u, In (t, u) (transcripts log) ->
               u = false /\ textOf msg = Some t /\ t <> ""%string)).
  { intros st' k q' Hs Ht. unfold handleTranscript.
    destruct (textOf msg) as [t|];
      [|cbn; rewrite Hs, Ht; split; [reflexivity|]; split; [cbn; lia|];
        intros ? ? []].
    destruct (truthy_string t) eqn:Et;
      [|cbn; rewrite Hs, Ht; split; [reflexivity|]; split; [cbn; lia|];
        intros ? ? []].
    cbn. rewrite Hs, Ht. split; [reflexivity|]. split; [cbn; lia|].
    intros t' u [[= <- <-]|[]].
    split; [reflexivity|]. split; [reflexivity|].
    now apply truthy_string_nonempty. }
  unfold handleAudio.
  destruct (audioDataOf msg) as [a|] eqn:Ea.
  2:{ destruct (Htr st m q Hqs Hqt) as (H1 & H2 & H3). cbv zeta. rewrite H1.
      split; [cbn; lia|]. split; [exact H2|]. split; [exact H3|].
      intros H; now contradiction H. }
  destruct (truthy_string a) eqn:Eta.
  2:{ destruct (Htr st m q Hqs Hqt) as (H1 & H2 & H3). cbv zeta. rewrite H1.
      split; [cbn; lia|]. split; [exact H2|]. split; [exact H3|].
      intros H; now contradiction H. }
  cbn [run_from].
  destruct (playAudio_cases st now a) as [H|(b & Hd & H)].
  - destruct (playAudio st now a) as [[st1 ev] [e|]];
      cbn [fst] in H; injection H as -> ->.
    + cbn [fst snd]. rewrite app_nil_r, Hqs, Hqt.
      split; [cbn; lia|]. split; [cbn; lia|]. split; [intros ? ? []|].
      intros H; now contradiction H.
    + destruct (Htr st m (@nil Event) eq_refl eq_refl) as (H1 & H2 & H3).
      destruct (run_from sink now st m [] (handleTranscript msg)) as [[st' log] c].
      cbn [fst snd app] in *. rewrite scheduled_app, transcripts_app, Hqs, Hqt, H1.
      split; [cbn; lia|]. split; [exact H2|]. split; [exact H3|].
      intros H; now contradiction H.
  - rewrite H. set (st1 := set_nextStartTime st _).
    destruct (Htr st1 m (@nil Event) eq_refl eq_refl) as (H1 & H2 & H3).
    destruct (run_from sink now st1 m [] (handleTranscript msg)) as [[st' log] c].
    cbn [fst snd] in *.
    rewrite scheduled_app, transcripts_app, Hqs, Hqt.
    cbn [app scheduled transcripts]. rewrite H1.
    split; [cbn; lia|]. split; [exact H2|]. split; [exact H3|].
    intros _. exists a. split; [reflexivity|].
    split; [now apply truthy_string_nonempty|].
    intros Hatob. unfold playAudio in H. rewrite Hatob in H.
    destruct (outputContext st); discriminate H.
Qed.

Lemma loop_then_rest (fcs : list FunctionCall) (rest : Task) (st : Service) :
  forall n q,
  scheduled q = [] -> transcripts q = [] ->
  let log := snd (fst (run_from sink now st n q (forFunctionCalls fcs rest))) in
  (scheduled log = [] /\ transcripts log = []) \/
  (exists m q',
     scheduled q' = [] /\ transcripts q' = [] /\
     scheduled log = scheduled (snd (fst (run_from sink now st m q' rest))) /\
     transcripts log = transcripts (snd (fst (run_from sink now st m q' rest)))).
Proof.
  induction fcs as [|fc fcs IH]; intros n q Hqs Hqt.
  - right. exists n, q. repeat split; assumption.
  - cbn [forFunctionCalls].
    destruct (String.eqb (name fc) "moveRobot"); [|now apply IH].
    cbn [run_from]. destruct (sink n (motorCommand (args fc))) as [result| |];
      [|left; cbn; now rewrite Hqs, Hqt|left; cbn; now rewrite Hqs, Hqt].
    set (q' := [] ++ (if sessionPromise st
                      then [ToolResponse (mkFunctionResponse (id fc) (name fc) result)]
                      else [])).
    assert (Hs' : scheduled q' = []) by (subst q'; now destruct (sessionPromise st)).
    assert (Ht' : transcripts q' = []) by (subst q'; now destruct (sessionPromise st)).
    specialize (IH (S n) q' Hs' Ht').
    destruct (run_from sink now st (S n) q' (forFunctionCalls fcs rest))
      as [[st' log'] c].
    cbn [fst snd scheduled transcripts] in *.
    rewrite scheduled_app, transcripts_app, Hqs, Hqt. exact IH.
Qed.

(** X11. One message starts at most one buffer and forwards at most one
    transcript, whatever its tool calls and whatever the sink does; a
    forwarded transcript is the non-empty text of the first part, marked
    as not coming from the user; a started buffer comes from non-empty
    audio data of the first part that [atob] accepts. *)
Theorem one_buffer_one_transcript (msg : LiveServerMessage) (st : Service)
    (n : nat) :
  let log := snd (fst (run sink now st n (onmessage msg))) in
  (List.length (scheduled log) <= 1)%nat /\
  (List.length (transcripts log) <= 1)%nat /\
  (forall t u, In (t, u) (transcripts log) ->
     u = false /\ textOf msg = Some t /\ t <> ""%string) /\
  (scheduled log <> [] ->
   exists a, audioDataOf msg = Some a /\ a <> ""%string /\
             Base64.atob a <> None).
Proof.
  unfold run, onmessage. destruct (toolCall msg) as [[fcs]|];
    [|now apply after_loop_events].
  cbn [functionCalls].
  destruct (loop_then_rest fcs (handleAudio msg (handleTranscript msg)) st n []
              eq_refl eq_refl)
    as [[Hs Ht]|(m & q' & Hs' & Ht' & Hs & Ht)]; cbv zeta; rewrite Hs, Ht.
  - cbn. split; [lia|]. split; [lia|]. split; [intros ? ? []|].
    intros H; now contradiction H.
  - now apply after_loop_events.
Qed.

(** X12. When the audio of a message cannot be played (its text is not
    base64, or it decodes to an odd number of bytes or to none), the
    handler's promise is rejected with that failure, nothing is scheduled,
    the service is unchanged, and the transcript of the same message is
    not forwarded. *)
Theorem failed_audio_drops_transcript (sc : option ServerContent)
    (st : Service) (n : nat) (a : string) (e : PlayError) :
  audioDataOf (mkMessage None sc) = Some a ->
  a <> ""%string ->
  snd (playAudio st now a) = Some e ->
  run sink now st n (onmessage (mkMessage None sc))
  = (st, [], Rejected (PlaybackFailure e)).
Proof.
  intros Ha Hne He. unfold run, onmessage. cbn [toolCall]. unfold handleAudio.
  rewrite Ha. destruct a as [|c a']; [congruence|]. cbn [truthy_string run_from].
  destruct (playAudio_cases st now (String c a')) as [H|(b & _ & H)].
  - destruct (playAudio st now (String c a')) as [[st1 ev] err].
    cbn [fst snd] in *. injection H as -> ->. now rewrite He.
  - rewrite H in He. discriminate He.
Qed.

End MessageEvents.

Lemma one_buffer_one_transcript_witness :
  let msg := mkMessage None (Some (mkServerContent (Some (mkModelTurn (Some
               [mkPart (Some (mkInlineData (Some "AAAAAA=="%string)))
                  (Some "Affirmative"%string);
                mkPart (Some (mkInlineData (Some "AAAAAAAA"%string)))
                  (Some "later"%string)]))))) in
  let log := snd (fst (run Examples.sink_ok 0 Examples.connected 0 (onmessage msg))) in
  In ("Affirmative"%string, false) (Notions.transcripts log) /\
  textOf msg = Some "Affirmative"%string /\
  List.length (scheduled log) = 1%nat.
Proof.
  intros msg log.
  assert (Hin : In ("Affirmative"%string, false) (Notions.transcripts log)) by (left; reflexivity).
  split; [exact Hin|].
  destruct (one_buffer_one_transcript Examples.sink_ok 0 msg Examples.connected 0)
    as (_ & _ & H & _).
  split; [exact (proj1 (proj2 (H _ _ Hin)))|reflexivity].
Defined.

Lemma failed_audio_drops_transcript_witness :
  let sc := Some (mkServerContent (Some (mkModelTurn (Some
              [mkPart (Some (mkInlineData (Some "AAAA"%string)))
                 (Some "Engaging motors"%string)])))) in
  textOf (mkMessage None sc) = Some "Engaging motors"%string /\
  run Examples.sink_ok 0 Examples.connected 0 (onmessage (mkMessage None sc))
  = (Examples.connected, [],
     Rejected (PlaybackFailure (DecodeFailure Codec.RangeError))).
Proof.
  intros sc. split; [reflexivity|].
  refine (failed_audio_drops_transcript Examples.sink_ok 0 sc Examples.connected
            0 "AAAA"%string (DecodeFailure Codec.RangeError) eq_refl _ eq_refl).
  intros E; discriminate E.
Defined.

Lemma onmessage_keeps_connection_witness :
  let msg := mkMessage (Some (mkToolCall [Examples.forward_a]))
               (Some (mkServerContent (Some (mkModelTurn (Some
                  [mkPart None (Some "Affirmative"%string)]))))) in
  audioDataOf msg = None /\
  fst (fst (run Examples.sink_ok 7 Examples.connected 0 (onmessage msg)))
  = Examples.connected.
Proof.
  intros msg. split; [reflexivity|].
  destruct (onmessage_keeps_connection Examples.sink_ok 7 msg Examples.connected 0)
    as (_ & _ & _ & _ & _ & _ & _ & H).
  exact (H eq_refl).
Defined.

(** ** Commands, teardown and scene analysis *)

Section CommandFacts.
Import Notions.
Local Open Scope Q_scope.

Lemma spd_of_range (a : Args) :
  (speed a = None \/ exists q, speed a = Some (Fin q) /\ 0 <= q /\ q <= 255) ->
  exists s, spd_of a = Fin s /\ 0 <= s /\ s <= 255.
Proof.
  unfold spd_of. intros [-> | (q & -> & Hlo & Hhi)].
  - exists 200. repeat split; intros E; discriminate E.
  - cbn [truthy]. destruct (negb (is_zero q)).
    + exists q. auto.
    + exists 200. repeat split; intros E; discriminate E.
Qed.

(** X13. A command built from a tool call never has both axes set, and
    when the speed argument is missing or lies between 0 and 255 both axes
    lie in the PWM range [-255, 255]. *)
Theorem motorCommand_axes (a : Args) :
  let c := motorCommand a in
  (throttle c = Fin 0 \/ steer c = Fin 0) /\
  ((speed a = None \/ exists q, speed a = Some (Fin q) /\ 0 <= q /\ q <= 255) ->
   in_pwm_range (throttle c) /\ in_pwm_range (steer c)).
Proof.
  cbv zeta. split.
  - unfold motorCommand. destruct (direction a) as [dir|]; [|now left].
    repeat match goal with
           | |- context [if ?b then _ else _] => destruct b
           end; cbn; auto.
  - intros Hsp. destruct (spd_of_range a Hsp) as (s & Hs & Hlo & Hhi).
    unfold motorCommand. rewrite Hs.
    destruct (direction a) as [dir|].
    + repeat match goal with
             | |- context [if ?b then _ else _] => destruct b
             end; cbn; repeat split; lra.
    + cbn. repeat split; lra.
Qed.

Lemma motorCommand_axes_witness :
  let a := mkArgs (Some "backward"%string) (Some (Fin 255)) in
  (speed a = None \/ exists q, speed a = Some (Fin q) /\ 0 <= q /\ q <= 255) /\
  in_pwm_range (throttle (motorCommand a)) /\
  in_pwm_range (steer (motorCommand a)).
Proof.
  intros a.
  assert (H : speed a = None \/
              exists q, speed a = Some (Fin q) /\ 0 <= q /\ q <= 255).
  { right. exists 255. split; [reflexivity|]. split; intros E; discriminate E. }
  split; [exact H | exact (proj2 (motorCommand_axes a) H)].
Defined.

End CommandFacts.

Section LifecycleFacts.

(** X14. A [connect] that obtains the microphone, followed by [onopen],
    always leaves a service on which [disconnect] completes, whatever
    happened before
    (also after an earlier [disconnect]): source and processor are
    disconnected, the fresh capture context is closed, and the close
    callback is invoked once.  When the microphone is refused, [connect]
    is rejected and stores no session promise, but the capture context it
    created stays, and a later [disconnect] closes it. *)
Theorem connect_then_disconnect (closedRejects granted : bool) (st : Service) :
  let '(st1, c) := connect granted st in
  audioContext st1 = Some Running /\
  outputContext st1 = outputContext st /\
  nextStartTime st1 = nextStartTime st /\
  (granted = true ->
   sessionPromise st1 = true /\ stream st1 = true /\
   disconnect closedRejects (onopen st1)
   = (mkService true (Some Closed) true true (outputContext st)
        (nextStartTime st) true,
      [SourceDisconnected; ProcessorDisconnected; AudioContextCloseCalled;
       CloseCallback],
      Completed)) /\
  (granted = false ->
   c = Rejected NotAllowedError /\
   sessionPromise st1 = sessionPromise st /\ stream st1 = stream st /\
   let '(st2, log, c2) := disconnect closedRejects st1 in
   c2 = Completed /\ audioContext st2 = Some Closed /\
   In AudioContextCloseCalled log /\ close_callbacks log = 1%nat).
Proof.
  destruct st as [sp ac ip src oc nst str]. destruct granted; cbn.
  - split; [reflexivity|]. split; [reflexivity|]. split; [reflexivity|].
    split; [|intros E; discriminate E]. intros _.
    split; [reflexivity|]. split; reflexivity.
  - split; [reflexivity|]. split; [reflexivity|]. split; [reflexivity|].
    split; [intros E; discriminate E|]. intros _.
    split; [reflexivity|]. split; [reflexivity|]. split; [reflexivity|].
    destruct src, ip; cbn; repeat split; auto.
Qed.

Lemma connect_then_disconnect_witness :
  let after := fst (fst (disconnect true Examples.connected)) in
  audioContext after = Some Closed /\
  snd (disconnect true (onopen (fst (connect true after)))) = Completed.
Proof.
  intros after. split; [reflexivity|].
  pose proof (connect_then_disconnect true true after) as T.
  destruct (connect true after) as [st1 c].
  destruct T as (_ & _ & _ & T & _). cbn [fst].
  destruct (T eq_refl) as (_ & _ & ->). reflexivity.
Defined.

Lemma run_depends_on (sink : nat -> MotorCommand -> SinkOutcome) (now : Q)
    (t : Task) :
  forall st1 st2 n q,
  sessionPromise st1 = sessionPromise st2 ->
  outputContext st1 = outputContext st2 ->
  nextStartTime st1 = nextStartTime st2 ->
  snd (fst (run_from sink now st1 n q t)) = snd (fst (run_from sink now st2 n q t)) /\
  snd (run_from sink now st1 n q t) = snd (run_from sink now st2 n q t).
Proof.
  induction t as [|c k IH|r k IH|base64 k IH|t u k IH];
    intros st1 st2 n q Hs Ho Hn; cbn [run_from].
  - split; reflexivity.
  - destruct (sink n c) as [result| |]; try (split; reflexivity).
    specialize (IH result st1 st2 (S n) [] Hs Ho Hn).
    destruct (run_from sink now st1 (S n) [] (k result)) as [[a1 l1] c1].
    destruct (run_from sink now st2 (S n) [] (k result)) as [[a2 l2] c2].
    cbn [fst snd] in *. destruct IH as [-> ->]. split; reflexivity.
  - rewrite Hs. now apply IH.
  - unfold playAudio. rewrite Ho, Hn.
    destruct (outputContext st2) eqn:Eo.
    + destruct (Base64.atob base64); [|split; reflexivity].
      destruct (Codec.decodeAudioData _); [split; reflexivity|].
      match goal with
      | |- context [run_from sink now (set_nextStartTime st1 ?x) n [] k] =>
          specialize (IH (set_nextStartTime st1 x) (set_nextStartTime st2 x) n []
                        Hs ltac:(cbn; congruence) eq_refl);
          destruct (run_from sink now (set_nextStartTime st1 x) n [] k) as [[a1 l1] c1];
          destruct (run_from sink now (set_nextStartTime st2 x) n [] k) as [[a2 l2] c2]
      end.
      cbn [fst snd] in *. destruct IH as [-> ->]. split; reflexivity.
    + specialize (IH st1 st2 n [] Hs ltac:(congruence) Hn).
      destruct (run_from sink now st1 n [] k) as [[a1 l1] c1].
      destruct (run_from sink now st2 n [] k) as [[a2 l2] c2].
      cbn [fst snd] in *. destruct IH as [-> ->]. split; reflexivity.
  - specialize (IH st1 st2 n q Hs Ho Hn).
    destruct (run_from sink now st1 n q k) as [[a1 l1] c1].
    destruct (run_from sink now st2 n q k) as [[a2 l2] c2].
    cbn [fst snd] in *. destruct IH as [-> ->]. split; reflexivity.
Qed.

(** X15. [disconnect] does not stop the handling of messages: after it,
    whether it completed or failed, a server message dispatches the same
    commands, issues the same responses, starts the same buffer and
    forwards the same transcript as before it. *)
Theorem disconnect_does_not_silence_handler (closedRejects : bool)
    (sink : nat -> MotorCommand -> SinkOutcome) (now : Q) (st : Service)
    (n : nat) (msg : LiveServerMessage) :
  let after := fst (fst (disconnect closedRejects st)) in
  snd (fst (run sink now after n (onmessage msg)))
  = snd (fst (run sink now st n (onmessage msg))) /\
  snd (run sink now after n (onmessage msg))
  = snd (run sink now st n (onmessage msg)).
Proof.
  cbv zeta. unfold run. apply run_depends_on;
    unfold disconnect; destruct (audioContext st) as [[|]|];
    destruct closedRejects; reflexivity.
Qed.

End LifecycleFacts.

Section SceneExtra.
Import Scene.
Local Open Scope string_scope.

(** X16. [analyzeScene] never returns the empty string: an empty or
    missing response text is replaced, and a failure string always starts
    with a fixed prefix. *)
Theorem analyzeScene_never_empty (generateContent : Request -> ModelOutcome)
    (base64Image : string) :
  analyzeScene generateContent base64Image <> Returned "" /\
  forall m, generateContent (requestFor base64Image) = Threw (ThrownValue m) ->
            exists rest, analyzeScene generateContent base64Image
                         = Returned ("Analysis failed: " ++ rest).
Proof.
  unfold analyzeScene. split.
  - destruct (generateContent (requestFor base64Image)) as [[t|]|[|m]];
      try discriminate.
    destruct t; discriminate.
  - intros m ->. unfold failureString. eexists. reflexivity.
Qed.

Lemma analyzeScene_never_empty_witness :
  let answer (_ : Request) := Threw (ThrownValue None) in
  answer (requestFor "/9j/4AAQ") = Threw (ThrownValue None) /\
  exists rest, analyzeScene answer "/9j/4AAQ" = Returned ("Analysis failed: " ++ rest).
Proof.
  intros answer. split; [reflexivity|].
  exact (proj2 (analyzeScene_never_empty answer "/9j/4AAQ") None eq_refl).
Defined.

End SceneExtra.

Lemma encodeSample_zero_witness :
  (- (1 # 32768) < 1 # 40000)%Q /\ (1 # 40000 < 1 # 32767)%Q /\
  Codec.encodeSample (Fin (1 # 40000)) = 0.
Proof.
  assert (H1 : (- (1 # 32768) < 1 # 40000)%Q) by reflexivity.
  assert (H2 : (1 # 40000 < 1 # 32767)%Q) by reflexivity.
  split; [exact H1|]. split; [exact H2|].
  exact (proj2 (encodeSample_zero (1 # 40000)) (conj H1 H2)).
Defined.
